(** * Blowfish: a shallow embedding of blowfish.cpp

    The class [Blowfish] holds the subkey array [pary_] and the substitution
    tables [sbox_].  [SetKey] is the only member function that writes them;
    [Encrypt], [Decrypt], [EncryptBlock], [DecryptBlock] and [Feistel] are
    [const].  Member functions are computations over the object, which may
    stop at a fault and then leave the object as it was at that point. *)

From Stdlib Require Import ZArith List Lia Bool.
From Equations Require Import Equations.
From coqutil Require Import Byte Word.LittleEndianList.
From stdpp Require Import base list.
Import ListNotations.
Local Open Scope Z_scope.

(** ** Machine integers

    [uint32_t] values are integers in [[0, 2^32)]; addition wraps around and
    exclusive or is [Z.lxor].  [int] values are the integers of
    [[INT_MIN, INT_MAX]]; [/] and [%] on [int] truncate towards zero
    ([Z.quot], [Z.rem]).  [GCD] is modelled on the whole range of [int],
    with the one remainder that overflows, [INT_MIN % -1].  In [SetKey] the
    index [i * 4 + 3] of the packing loop is not checked for overflow: it
    stays inside the range of [int] for every key below [2^29] bytes, and
    what is proved of [SetKey] as a function of the key length is proved
    for such lengths. *)

Definition uint32 (x : Z) : Prop := 0 <= x < 2 ^ 32.

Definition INT_MAX : Z := 2 ^ 31 - 1.
Definition INT_MIN : Z := - 2 ^ 31.

Definition int_range (x : Z) : Prop := INT_MIN <= x <= INT_MAX.

(** [a % b] overflows: the quotient [INT_MIN / -1] is not an [int]. *)
Definition rem_overflows (a b : Z) : bool := (a =? INT_MIN) && (b =? -1).

Definition add32 (a b : Z) : Z := (a + b) mod 2 ^ 32.

#[global] Instance byte_inhabited : Inhabited byte := populate Byte.x00.

(** Array access with a C index.  The code never indexes outside an array
    it owns; outside, C++ leaves the behaviour undefined, and these
    functions read the default element and write nothing. *)
Definition at_ {A : Type} `{Inhabited A} (a : list A) (i : Z) : A :=
  a !!! Z.to_nat i.

Definition upd {A : Type} (a : list A) (i : Z) (v : A) : list A :=
  <[Z.to_nat i := v]> a.

(** ** Faults and computations over the object *)

(** The ways the code can stop short of returning: an integer division by
    zero or the remainder [INT_MIN % -1] (both undefined in C++, and the
    same trap on common hardware), and an array allocation with a negative
    length ([std::bad_array_new_length]). *)
Inductive fault : Type :=
| DivisionByZero      (* [/] or [%] with a zero divisor *)
| RemainderOverflow   (* [INT_MIN % -1] *)
| BadArrayNewLength.  (* [new T[n]] with a negative [n] *)

Inductive outcome (A : Type) : Type :=
| Returns (a : A)
| Faults (f : fault).
Arguments Returns {A} a.
Arguments Faults {A} f.

Record Blowfish : Type := mkBlowfish {
  pary_ : list Z;   (* uint32_t pary_[18] *)
  sbox_ : list Z    (* uint32_t sbox_[4][256], row after row *)
}.

Definition M (A : Type) : Type := Blowfish -> outcome A * Blowfish.

Definition ret {A : Type} (a : A) : M A := fun this => (Returns a, this).

Definition bind {A B : Type} (m : M A) (k : A -> M B) : M B :=
  fun this =>
    match m this with
    | (Returns a, this') => k a this'
    | (Faults f, this') => (Faults f, this')
    end.

Definition lift {A : Type} (o : outcome A) : M A := fun this => (o, this).

Declare Scope cxx_scope.
Delimit Scope cxx_scope with cxx.
Bind Scope cxx_scope with M.
Notation "x <- m ;; k" := (bind m (fun x => k))
  (at level 100, m at next level, k at level 200, right associativity)
  : cxx_scope.
Notation "m ;; k" := (bind m (fun _ => k))
  (at level 100, k at level 200, right associativity) : cxx_scope.
Local Open Scope cxx_scope.

(** [for (int i = start; i < start + count; ++i) body], with the variables
    the body assigns carried in [a]. *)
Fixpoint for_loop {A : Type} (count : nat) (i : Z) (body : Z -> A -> M A)
    (a : A) : M A :=
  match count with
  | O => ret a
  | S count' => a' <- body i a ;; for_loop count' (i + 1) body a'
  end.

Definition for_ {A : Type} (n : Z) (body : Z -> A -> M A) (a : A) : M A :=
  for_loop (Z.to_nat n) 0 body a.

(** [int] division and remainder. *)
Definition div_int (a b : Z) : outcome Z :=
  if b =? 0 then Faults DivisionByZero else Returns (Z.quot a b).

Definition rem_int (a b : Z) : outcome Z :=
  if b =? 0 then Faults DivisionByZero else Returns (Z.rem a b).

(** [new uint32_t[n]]: an array of [n] words, every one of which the code
    writes before it reads it. *)
Definition new_uint32 (n : Z) : outcome (list Z) :=
  if n <? 0 then Faults BadArrayNewLength
  else Returns (replicate (Z.to_nat n) 0).

(** Reads and writes of the members. *)
Definition get_pary (i : Z) : M Z :=
  fun this => (Returns (at_ (pary_ this) i), this).

Definition set_pary (i : Z) (v : Z) : M unit :=
  fun this => (Returns tt, mkBlowfish (upd (pary_ this) i v) (sbox_ this)).

(** [sbox_[t][a]] *)
Definition get_sbox (t a : Z) : M Z :=
  fun this => (Returns (at_ (sbox_ this) (t * 256 + a)), this).

(** [reinterpret_cast<uint32_t*>(sbox_)[j] = v] *)
Definition set_sbox_flat (j : Z) (v : Z) : M unit :=
  fun this => (Returns tt, mkBlowfish (pary_ this) (upd (sbox_ this) j v)).

(** ** The build: byte order of the host and the endianness macros *)

Inductive byte_order : Type := LittleEndian | BigEndian.

Record build : Type := mkBuild {
  host : byte_order;
  LITTLE_ENDIAN_predefined : bool;   (* __LITTLE_ENDIAN__ set by the compiler *)
  BIG_ENDIAN_predefined : bool       (* __BIG_ENDIAN__ set by the compiler *)
}.

(** Lines 11-13: with neither macro set, [__LITTLE_ENDIAN__] is defined. *)
Definition LITTLE_ENDIAN_defined (b : build) : bool :=
  LITTLE_ENDIAN_predefined b || negb (BIG_ENDIAN_predefined b).

(** The macro that ends up selected agrees with the host. *)
Definition configured (b : build) : Prop :=
  LITTLE_ENDIAN_defined b =
  match host b with LittleEndian => true | BigEndian => false end.

(** ** GCD

    The loop of lines 63-67 from the values of [gcd_prev] and [gcd]:
    [gcd_prev % gcd] is computed first, and is undefined for [gcd = 0] and
    for [INT_MIN % -1]; when it is zero the loop ends and [gcd] is
    returned, otherwise the loop goes on with [gcd] and the remainder. *)

Equations? GCD_loop (gcd_prev gcd : Z) : outcome Z by wf (Z.abs_nat gcd) lt :=
  GCD_loop gcd_prev gcd with Z.eq_dec gcd 0 := {
    | left _ => Faults DivisionByZero
    | right _ with rem_overflows gcd_prev gcd := {
      | true => Faults RemainderOverflow
      | false with Z.eq_dec (Z.rem gcd_prev gcd) 0 := {
        | left _ => Returns gcd
        | right _ => GCD_loop gcd (Z.rem gcd_prev gcd) } } }.
Proof.
  pose proof (Z.rem_bound_abs gcd_prev gcd). lia.
Qed.

Definition GCD (larger smaller : Z) : outcome Z := GCD_loop larger smaller.

Section Cipher.

Variable cfg : build.

(** The constant tables [initial_pary[18]] and [initial_sbox[4][256]], the
    latter row after row.  The source file declares them without their
    constants; the functions are modelled for any contents of the two
    tables. *)
Variable initial_pary : list Z.
Variable initial_sbox : list Z.

(** ** Converter32

    The union is four bytes of storage, lowest address first.  [bit_32]
    views them as one word in the host's byte order; [bit_8] names them
    [byte3, byte2, byte1, byte0] when [__LITTLE_ENDIAN__] is defined and
    [byte0, byte1, byte2, byte3] otherwise.  The code writes one member and
    reads the other, which compilers implement as the reinterpretation of
    the four bytes modelled here. *)

Definition Converter32 : Type := list byte.

(** A declared, not yet assigned converter. *)
Definition Converter32_new : Converter32 :=
  [Byte.x00; Byte.x00; Byte.x00; Byte.x00].

Definition get_bit_32 (c : Converter32) : Z :=
  match host cfg with
  | LittleEndian => le_combine c
  | BigEndian => le_combine (rev c)
  end.

Definition set_bit_32 (v : Z) : Converter32 :=
  match host cfg with
  | LittleEndian => le_split 4 v
  | BigEndian => rev (le_split 4 v)
  end.

Definition offset_of_byte (k : nat) : nat :=
  if LITTLE_ENDIAN_defined cfg then (3 - k)%nat else k.

Definition get_byte (k : nat) (c : Converter32) : byte :=
  c !!! offset_of_byte k.

Definition set_byte (k : nat) (b : byte) (c : Converter32) : Converter32 :=
  <[offset_of_byte k := b]> c.

(** ** Feistel *)

Definition Feistel (value : Z) : M Z :=
  let converter := set_bit_32 value in
  let a := byte.unsigned (get_byte 0 converter) in
  let b := byte.unsigned (get_byte 1 converter) in
  let c := byte.unsigned (get_byte 2 converter) in
  let d := byte.unsigned (get_byte 3 converter) in
  s0 <- get_sbox 0 a ;;
  s1 <- get_sbox 1 b ;;
  s2 <- get_sbox 2 c ;;
  s3 <- get_sbox 3 d ;;
  ret (add32 (Z.lxor (add32 s0 s1) s2) s3).

(** ** EncryptBlock and DecryptBlock

    [left] and [right] point to two words outside the object; the functions
    take their values, here [(L, R)], and return the values they leave
    there. *)

Definition EncryptBlock (block : Z * Z) : M (Z * Z) :=
  block <- for_ 16 (fun i '(L, R) =>
      p <- get_pary i ;;
      let L := Z.lxor L p in
      f <- Feistel L ;;
      let R := Z.lxor R f in
      ret (R, L)) block ;;
  let '(L, R) := block in
  let '(L, R) := (R, L) in
  p16 <- get_pary 16 ;;
  let R := Z.lxor R p16 in
  p17 <- get_pary 17 ;;
  let L := Z.lxor L p17 in
  ret (L, R).

Definition DecryptBlock (block : Z * Z) : M (Z * Z) :=
  block <- for_ 16 (fun i '(L, R) =>
      p <- get_pary (17 - i) ;;
      let L := Z.lxor L p in
      f <- Feistel L ;;
      let R := Z.lxor R f in
      ret (R, L)) block ;;
  let '(L, R) := block in
  let '(L, R) := (R, L) in
  p1 <- get_pary 1 ;;
  let R := Z.lxor R p1 in
  p0 <- get_pary 0 ;;
  let L := Z.lxor L p0 in
  ret (L, R).

(** ** SetKey *)

(** Lines 83-84: both arrays overwritten with the constants. *)
Definition copy_constants : M unit :=
  fun _ => (Returns tt, mkBlowfish initial_pary initial_sbox).

(** Lines 83-115: the constants are copied in, the key is packed into
    words, and the words are folded into the subkeys. *)
Definition SetKey_keying (key : list byte) (byte_length : Z) : M unit :=
  copy_constants ;;
  let pary_length := 18 in
  g <- lift (GCD byte_length 4) ;;
  buffer_length <- lift (div_int byte_length g) ;;
  key_buffer <- lift (new_uint32 buffer_length) ;;
  key_buffer <- for_ buffer_length (fun i key_buffer =>
      let converter := Converter32_new in
      i0 <- lift (rem_int (i * 4) byte_length) ;;
      let converter := set_byte 0 (at_ key i0) converter in
      i1 <- lift (rem_int (i * 4 + 1) byte_length) ;;
      let converter := set_byte 1 (at_ key i1) converter in
      i2 <- lift (rem_int (i * 4 + 2) byte_length) ;;
      let converter := set_byte 2 (at_ key i2) converter in
      i3 <- lift (rem_int (i * 4 + 3) byte_length) ;;
      let converter := set_byte 3 (at_ key i3) converter in
      ret (upd key_buffer i (get_bit_32 converter))) key_buffer ;;
  for_ pary_length (fun i (_ : unit) =>
      j <- lift (rem_int i buffer_length) ;;
      let key_uint32 := at_ key_buffer j in
      p <- get_pary i ;;
      set_pary i (Z.lxor p key_uint32)) tt.

(** Lines 117-139: key expansion. *)
Definition SetKey_expansion : M unit :=
  let pary_length := 18 in
  let sbox_length := 1024 in
  let block := (0, 0) in
  block <- for_ (Z.quot pary_length 2) (fun i block =>
      block <- EncryptBlock block ;;
      let '(L, R) := block in
      set_pary (i * 2) L ;;
      set_pary (i * 2 + 1) R ;;
      ret (L, R)) block ;;
  block <- for_ (Z.quot sbox_length 2) (fun i block =>
      block <- EncryptBlock block ;;
      let '(L, R) := block in
      set_sbox_flat (i * 2) L ;;
      set_sbox_flat (i * 2 + 1) R ;;
      ret (L, R)) block ;;
  ret tt.

Definition SetKey (key : list byte) (byte_length : Z) : M unit :=
  SetKey_keying key byte_length ;;
  SetKey_expansion.

(** ** Encrypt and Decrypt on buffers

    A buffer is the list of its bytes.  [src] is [None] when the caller
    passes the same pointer for [dst] and [src].  [byte_length] is taken
    non-negative and within both buffers, as [memcpy] requires; the loop
    bound [byte_length / sizeof(uint64_t)] is then the quotient by 8.
    [left] and [right] point to words [2i] and [2i+1] of [dst]: the block
    function gets their values and the values it leaves are stored
    back. *)

Definition memcpy (dst src : list byte) (n : Z) : list byte :=
  take (Z.to_nat n) src ++ drop (Z.to_nat n) dst.

(** [reinterpret_cast<uint32_t*>(dst)[j]], read and written in the host's
    byte order. *)
Definition load32 (dst : list byte) (j : Z) : Z :=
  get_bit_32 (take 4 (drop (Z.to_nat (4 * j)) dst)).

Definition store32 (dst : list byte) (j : Z) (v : Z) : list byte :=
  take (Z.to_nat (4 * j)) dst ++ set_bit_32 v
    ++ drop (Z.to_nat (4 * j) + 4) dst.

Definition Encrypt (dst : list byte) (src : option (list byte))
    (byte_length : Z) : M (list byte) :=
  let dst := match src with
             | Some s => memcpy dst s byte_length
             | None => dst
             end in
  for_ (Z.quot byte_length 8) (fun i dst =>
      block <- EncryptBlock (load32 dst (i * 2), load32 dst (i * 2 + 1)) ;;
      let '(L, R) := block in
      ret (store32 (store32 dst (i * 2) L) (i * 2 + 1) R)) dst.

Definition Decrypt (dst : list byte) (src : option (list byte))
    (byte_length : Z) : M (list byte) :=
  let dst := match src with
             | Some s => memcpy dst s byte_length
             | None => dst
             end in
  for_ (Z.quot byte_length 8) (fun i dst =>
      block <- DecryptBlock (load32 dst (i * 2), load32 dst (i * 2 + 1)) ;;
      let '(L, R) := block in
      ret (store32 (store32 dst (i * 2) L) (i * 2 + 1) R)) dst.

End Cipher.

(** ** The constant tables as the source file has them

    Lines 46-52 declare [initial_pary[18]] and [initial_sbox[4][256]] with
    empty braces, the constants being "omitted for brevity": every element
    of both arrays is zero. *)

Module Shipped.

Definition initial_pary : list Z := replicate 18 0.
Definition initial_sbox : list Z := replicate 1024 0.

End Shipped.

(** * Definitions used to state and prove the properties *)

(** The iteration of a loop step [count] times from index [i]. *)
Fixpoint iter_loop {T : Type} (count : nat) (i : Z) (step : Z -> T -> T)
    (s : T) : T :=
  match count with
  | O => s
  | S count' => iter_loop count' (i + 1) step (step i s)
  end.

(** ** The Feistel network over an arbitrary round function *)

Section Network.

Variable F : Z -> Z.

(** One pass of the loop body: [left ^= k; right ^= F(left); swap]. *)
Definition round (k : Z) (b : Z * Z) : Z * Z :=
  let '(L, R) := b in (Z.lxor R (F (Z.lxor L k)), Z.lxor L k).

(** What follows the loop: swap back, then the two last subkeys. *)
Definition finish (ka kb : Z) (b : Z * Z) : Z * Z :=
  let '(L, R) := b in (Z.lxor R kb, Z.lxor L ka).

Definition rounds (ks : list Z) (b : Z * Z) : Z * Z :=
  fold_left (fun b k => round k b) ks b.

(** The same network with each subkey moved across the swap that
    precedes it. *)
Definition whiten (k : Z) (b : Z * Z) : Z * Z :=
  let '(L, R) := b in (Z.lxor L k, R).

Definition swap (b : Z * Z) : Z * Z := let '(L, R) := b in (R, L).

Definition keyed_round (k : Z) (b : Z * Z) : Z * Z :=
  let '(L, R) := b in (Z.lxor (Z.lxor R (F L)) k, L).

Definition keyed_rounds (ks : list Z) (b : Z * Z) : Z * Z :=
  fold_left (fun b k => keyed_round k b) ks b.

End Network.

Section Values.

Variable cfg : build.

(** The word [Feistel] returns, read off its body. *)
Definition Feistel_value (this : Blowfish) (value : Z) : Z :=
  let converter := set_bit_32 cfg value in
  let a := byte.unsigned (get_byte cfg 0 converter) in
  let b := byte.unsigned (get_byte cfg 1 converter) in
  let c := byte.unsigned (get_byte cfg 2 converter) in
  let d := byte.unsigned (get_byte cfg 3 converter) in
  add32 (Z.lxor (add32 (at_ (sbox_ this) (0 * 256 + a))
                       (at_ (sbox_ this) (1 * 256 + b)))
                (at_ (sbox_ this) (2 * 256 + c)))
        (at_ (sbox_ this) (3 * 256 + d)).

Definition subkey (this : Blowfish) (i : Z) : Z := at_ (pary_ this) i.

(** The blocks [EncryptBlock] and [DecryptBlock] return, as the network
    run over the subkeys in the order the loops read them. *)
Definition encrypt_value (this : Blowfish) (block : Z * Z) : Z * Z :=
  finish (subkey this 16) (subkey this 17)
    (rounds (Feistel_value this)
       (map (subkey this) [0; 1; 2; 3; 4; 5; 6; 7; 8; 9; 10; 11; 12; 13; 14; 15])
       block).

Definition decrypt_value (this : Blowfish) (block : Z * Z) : Z * Z :=
  finish (subkey this 1) (subkey this 0)
    (rounds (Feistel_value this)
       (map (subkey this) [17; 16; 15; 14; 13; 12; 11; 10; 9; 8; 7; 6; 5; 4; 3; 2])
       block).

End Values.

(** ** Bytes of a word and entries of the tables *)

(** Byte [n] of [x], byte 0 being the least significant. *)
Definition byte_of (x : Z) (n : Z) : Z := Z.shiftr x (8 * n) mod 256.

(** Entry [a] of substitution table [t]. *)
Definition table (this : Blowfish) (t a : Z) : Z :=
  at_ (sbox_ this) (t * 256 + a).

(** The round function with [a] the most significant byte of [x]. *)
Definition F_msb_first (this : Blowfish) (x : Z) : Z :=
  add32 (Z.lxor (add32 (table this 0 (byte_of x 3)) (table this 1 (byte_of x 2)))
                (table this 2 (byte_of x 1)))
        (table this 3 (byte_of x 0)).

(** The round function as the specification words it: [a] the least
    significant byte of [x], [d] the most significant. *)
Definition F_lsb_first (this : Blowfish) (x : Z) : Z :=
  add32 (Z.lxor (add32 (table this 0 (byte_of x 0)) (table this 1 (byte_of x 1)))
                (table this 2 (byte_of x 2)))
        (table this 3 (byte_of x 3)).

(** ** Three builds *)

(** A little-endian host; neither macro is predefined, so line 12 defines
    [__LITTLE_ENDIAN__]. *)
Definition little_endian_build : build := mkBuild LittleEndian false false.

(** A big-endian host whose compiler predefines [__BIG_ENDIAN__]. *)
Definition big_endian_build : build := mkBuild BigEndian false true.

(** A big-endian host whose compiler predefines neither macro, so that
    line 12 defines [__LITTLE_ENDIAN__] all the same. *)
Definition unflagged_big_endian_build : build := mkBuild BigEndian false false.

(** ** Key packing *)

(** The indices [i, i + 1, ...] of [n] passes of a loop. *)
Fixpoint Zseq (i : Z) (n : nat) : list Z :=
  match n with
  | O => []
  | S n' => i :: Zseq (i + 1) n'
  end.

Section Keying.

Variable cfg : build.

(** The word the packing loop stores in [key_buffer[i]], read off its
    body. *)
Definition key_word (key : list byte) (byte_length i : Z) : Z :=
  let converter := Converter32_new in
  let converter := set_byte cfg 0 (at_ key (Z.rem (i * 4) byte_length)) converter in
  let converter := set_byte cfg 1 (at_ key (Z.rem (i * 4 + 1) byte_length)) converter in
  let converter := set_byte cfg 2 (at_ key (Z.rem (i * 4 + 2) byte_length)) converter in
  let converter := set_byte cfg 3 (at_ key (Z.rem (i * 4 + 3) byte_length)) converter in
  get_bit_32 cfg converter.

End Keying.

(** The subkeys after the loop of lines 109-113, [h i] being the word it
    folds into subkey [i]. *)
Definition xor_subkeys (h : Z -> Z) (p : list Z) : list Z :=
  iter_loop 18 0 (fun i p => upd p i (Z.lxor (at_ p i) (h i))) p.

(** The packing as the specification words it. *)

Definition wordCount (length : Z) : Z := length / Z.gcd length 4.

(** [key[n mod length]] *)
Definition key_byte (key : list byte) (length n : Z) : Z :=
  byte.unsigned (at_ key (n mod length)).

(** [key[b0] | key[b1]<<8 | key[b2]<<16 | key[b3]<<24], as claimed. *)
Definition packed_word_little_endian (key : list byte) (length i : Z) : Z :=
  Z.lor (key_byte key length (i * 4))
    (Z.lor (Z.shiftl (key_byte key length (i * 4 + 1)) 8)
       (Z.lor (Z.shiftl (key_byte key length (i * 4 + 2)) 16)
          (Z.shiftl (key_byte key length (i * 4 + 3)) 24))).

(** [key[b0]<<24 | key[b1]<<16 | key[b2]<<8 | key[b3]]. *)
Definition packed_word_big_endian (key : list byte) (length i : Z) : Z :=
  Z.lor (Z.shiftl (key_byte key length (i * 4)) 24)
    (Z.lor (Z.shiftl (key_byte key length (i * 4 + 1)) 16)
       (Z.lor (Z.shiftl (key_byte key length (i * 4 + 2)) 8)
          (key_byte key length (i * 4 + 3)))).

Definition packedWords (word : Z -> Z) (length : Z) : list Z :=
  map word (Zseq 0 (Z.to_nat (wordCount length))).

(** Subkey [i] XORed with [packedWords[i mod wordCount]]. *)
Definition keyed_subkeys (word : Z -> Z) (length : Z) (subkeys : list Z) : list Z :=
  imap (fun i p =>
          Z.lxor p (at_ (packedWords word length) (Z.of_nat i mod wordCount length)))
       subkeys.

(** ** Key expansion as the specification words it *)

Definition set_subkey (i : Z) (v : Z) (this : Blowfish) : Blowfish :=
  mkBlowfish (upd (pary_ this) i v) (sbox_ this).

(** Entry [a] of table [t] overwritten. *)
Definition set_table_word (t a : Z) (v : Z) (this : Blowfish) : Blowfish :=
  mkBlowfish (pary_ this) (upd (sbox_ this) (t * 256 + a) v).

(** Iteration [j] overwrites with the encryption output [(L, R)]: for
    [j < 9] the subkey pair [(subkeys[2j], subkeys[2j+1])]; from then on
    words [2(j-9)] and [2(j-9)+1] of the tables in flattened order, word
    [w] being entry [w mod 256] of table [w / 256]. *)
Definition overwrite (j : nat) (out : Z * Z) (this : Blowfish) : Blowfish :=
  let '(L, R) := out in
  if (j <? 9)%nat then
    set_subkey (2 * Z.of_nat j + 1) R (set_subkey (2 * Z.of_nat j) L this)
  else
    let w := 2 * (Z.of_nat j - 9) in
    set_table_word ((w + 1) / 256) ((w + 1) mod 256) R
      (set_table_word (w / 256) (w mod 256) L this).

Section Expansion.

Variable cfg : build.

(** The block [EncryptBlock] returns for [acc] under the state [this]. *)
Definition encrypt_under (this : Blowfish) (acc : Z * Z) : Z * Z :=
  match fst (EncryptBlock cfg acc this) with
  | Returns out => out
  | Faults _ => acc
  end.

(** One iteration on the running accumulator and the state: encrypt the
    accumulator under the state as it is now, overwrite, carry the output
    on. *)
Definition expansion_step (j : nat) (s : (Z * Z) * Blowfish) : (Z * Z) * Blowfish :=
  let '(acc, this) := s in
  let out := encrypt_under this acc in
  (out, overwrite j out this).

(** 9 iterations over the subkeys, then 512 over the tables, from the
    accumulator [(0, 0)]. *)
Definition expansion (this : Blowfish) : Blowfish :=
  snd (fold_left (fun s j => expansion_step j s) (seq 0 (9 + 512)) ((0, 0), this)).

End Expansion.

(** The two loops of lines 122-139 as steps on the accumulator and the
    object. *)
Section Passes.

Variable cfg : build.

Definition subkey_pass (i : Z) (s : (Z * Z) * Blowfish) : (Z * Z) * Blowfish :=
  let out := encrypt_value cfg (snd s) (fst s) in
  (out, mkBlowfish (upd (upd (pary_ (snd s)) (i * 2) (fst out)) (i * 2 + 1) (snd out))
                   (sbox_ (snd s))).

Definition table_pass (i : Z) (s : (Z * Z) * Blowfish) : (Z * Z) * Blowfish :=
  let out := encrypt_value cfg (snd s) (fst s) in
  (out, mkBlowfish (pary_ (snd s))
                   (upd (upd (sbox_ (snd s)) (i * 2) (fst out)) (i * 2 + 1) (snd out))).

End Passes.

(** ** The error contract of the key schedule as the specification words it *)


(** An object whose arrays are all zero. *)
Definition zeroed : Blowfish := mkBlowfish (replicate 18 0) (replicate 1024 0).

(** ** Blocks of a buffer *)

Section Blocks.

Variable cfg : build.

(** The block cipher on one 8-byte block: [EncryptBlock] on the two words
    of the block, the result as the bytes of the two words. *)
Definition EncryptBlock_bytes (blk : list byte) : M (list byte) :=
  block <- EncryptBlock cfg (load32 cfg blk 0, load32 cfg blk 1) ;;
  let '(L, R) := block in
  ret (set_bit_32 cfg L ++ set_bit_32 cfg R).

Definition DecryptBlock_bytes (blk : list byte) : M (list byte) :=
  block <- DecryptBlock cfg (load32 cfg blk 0, load32 cfg blk 1) ;;
  let '(L, R) := block in
  ret (set_bit_32 cfg L ++ set_bit_32 cfg R).

(** A function on blocks applied to the bytes of one block, and to the
    first [n] blocks of a buffer. *)
Definition crypt_bytes (f : Z * Z -> Z * Z) (blk : list byte) : list byte :=
  let '(L, R) := f (load32 cfg blk 0, load32 cfg blk 1) in
  set_bit_32 cfg L ++ set_bit_32 cfg R.

Fixpoint ecb (f : Z * Z -> Z * Z) (n : nat) (buf : list byte) : list byte :=
  match n with
  | O => buf
  | S n' => crypt_bytes f (take 8 buf) ++ ecb f n' (drop 8 buf)
  end.

End Blocks.

(** The bytes [Encrypt] and [Decrypt] work from: those of [src], or those
    of [dst] when both pointers are the same. *)
Definition source_bytes (dst : list byte) (src : option (list byte)) : list byte :=
  match src with
  | Some s => s
  | None => dst
  end.

(** The destination once the source has been copied in (lines 150-153). *)
Definition copied (dst : list byte) (src : option (list byte)) (n : Z) : list byte :=
  match src with
  | Some s => memcpy dst s n
  | None => dst
  end.

(** Both halves of a block are 32-bit words. *)
Definition uint32_block (b : Z * Z) : Prop := uint32 (fst b) /\ uint32 (snd b).

(** ** Sample data *)

(** Two blocks. *)
Definition sample_A : list byte :=
  [Byte.x00; Byte.x01; Byte.x02; Byte.x03; Byte.x04; Byte.x05; Byte.x06; Byte.x07].
Definition sample_B : list byte :=
  [Byte.xf8; Byte.xf9; Byte.xfa; Byte.xfb; Byte.xfc; Byte.xfd; Byte.xfe; Byte.xff].

(** The key of 8 zero bytes, and the block of 8 zero bytes. *)
Definition zero_key : list byte := replicate 8 Byte.x00.
Definition zero_block : list byte := replicate 8 Byte.x00.

(** The ciphertext bytes the specification gives for them. *)
Definition claimed_known_answer : list byte :=
  [Byte.x4e; Byte.xf9; Byte.x97; Byte.x45; Byte.x61; Byte.x98; Byte.xdd; Byte.x78].

(** A four-byte key whose bytes differ. *)
Definition sample_key : list byte := [Byte.x01; Byte.x02; Byte.x03; Byte.x04].

(** Eleven bytes: one block and three more. *)
Definition sample_buffer : list byte := sample_A ++ [Byte.xaa; Byte.xbb; Byte.xcc].

(** ** Blocks and words of a buffer, and what a write leaves of an array *)

(** The number of 8-byte blocks [Encrypt] and [Decrypt] process for
    [byte_length]: the bound of their loops. *)
Definition block_count (byte_length : Z) : nat := Z.to_nat (Z.quot byte_length 8).

(** The [i]-th 8-byte block of a buffer. *)
Definition block_at (i : nat) (buf : list byte) : list byte :=
  take 8 (drop (8 * i) buf).

(** The first [n] four-byte words of a buffer, each with its bytes in the
    reverse order: the same words as a host of the other byte order stores
    them. *)
Fixpoint byteswap_words (n : nat) (buf : list byte) : list byte :=
  match n with
  | O => buf
  | S n' => rev (take 4 buf) ++ byteswap_words n' (drop 4 buf)
  end.


Module Pi.

(** Modelled from the spec: the initialisers of [initial_pary] and
    [initial_sbox], which the source file leaves out.  Per section 4.1 they
    are the constants of the published Blowfish specification, the
    fractional hexadecimal digits of pi taken 32 bits at a time: the first
    18 words are the subkeys, the next 4 x 256 words the tables. *)
Definition initial_pary : list Z :=
  [
   0x243f6a88; 0x85a308d3; 0x13198a2e; 0x03707344; 0xa4093822; 0x299f31d0;
   0x082efa98; 0xec4e6c89; 0x452821e6; 0x38d01377; 0xbe5466cf; 0x34e90c6c;
   0xc0ac29b7; 0xc97c50dd; 0x3f84d5b5; 0xb5470917; 0x9216d5d9; 0x8979fb1b
  ].

(** Modelled from the spec: the initialiser of [initial_sbox], words 19 to
    1042 of the same expansion, table after table. *)
Definition initial_sbox : list Z :=
  [
   0xd1310ba6; 0x98dfb5ac; 0x2ffd72db; 0xd01adfb7; 0xb8e1afed; 0x6a267e96;
   0xba7c9045; 0xf12c7f99; 0x24a19947; 0xb3916cf7; 0x0801f2e2; 0x858efc16;
   0x636920d8; 0x71574e69; 0xa458fea3; 0xf4933d7e; 0x0d95748f; 0x728eb658;
   0x718bcd58; 0x82154aee; 0x7b54a41d; 0xc25a59b5; 0x9c30d539; 0x2af26013;
   0xc5d1b023; 0x286085f0; 0xca417918; 0xb8db38ef; 0x8e79dcb0; 0x603a180e;
   0x6c9e0e8b; 0xb01e8a3e; 0xd71577c1; 0xbd314b27; 0x78af2fda; 0x55605c60;
   0xe65525f3; 0xaa55ab94; 0x57489862; 0x63e81440; 0x55ca396a; 0x2aab10b6;
   0xb4cc5c34; 0x1141e8ce; 0xa15486af; 0x7c72e993; 0xb3ee1411; 0x636fbc2a;
   0x2ba9c55d; 0x741831f6; 0xce5c3e16; 0x9b87931e; 0xafd6ba33; 0x6c24cf5c;
   0x7a325381; 0x28958677; 0x3b8f4898; 0x6b4bb9af; 0xc4bfe81b; 0x66282193;
   0x61d809cc; 0xfb21a991; 0x487cac60; 0x5dec8032; 0xef845d5d; 0xe98575b1;
   0xdc262302; 0xeb651b88; 0x23893e81; 0xd396acc5; 0x0f6d6ff3; 0x83f44239;
   0x2e0b4482; 0xa4842004; 0x69c8f04a; 0x9e1f9b5e; 0x21c66842; 0xf6e96c9a;
   0x670c9c61; 0xabd388f0; 0x6a51a0d2; 0xd8542f68; 0x960fa728; 0xab5133a3;
   0x6eef0b6c; 0x137a3be4; 0xba3bf050; 0x7efb2a98; 0xa1f1651d; 0x39af0176;
   0x66ca593e; 0x82430e88; 0x8cee8619; 0x456f9fb4; 0x7d84a5c3; 0x3b8b5ebe;
   0xe06f75d8; 0x85c12073; 0x401a449f; 0x56c16aa6; 0x4ed3aa62; 0x363f7706;
   0x1bfedf72; 0x429b023d; 0x37d0d724; 0xd00a1248; 0xdb0fead3; 0x49f1c09b;
   0x075372c9; 0x80991b7b; 0x25d479d8; 0xf6e8def7; 0xe3fe501a; 0xb6794c3b;
   0x976ce0bd; 0x04c006ba; 0xc1a94fb6; 0x409f60c4; 0x5e5c9ec2; 0x196a2463;
   0x68fb6faf; 0x3e6c53b5; 0x1339b2eb; 0x3b52ec6f; 0x6dfc511f; 0x9b30952c;
   0xcc814544; 0xaf5ebd09; 0xbee3d004; 0xde334afd; 0x660f2807; 0x192e4bb3;
   0xc0cba857; 0x45c8740f; 0xd20b5f39; 0xb9d3fbdb; 0x5579c0bd; 0x1a60320a;
   0xd6a100c6; 0x402c7279; 0x679f25fe; 0xfb1fa3cc; 0x8ea5e9f8; 0xdb3222f8;
   0x3c7516df; 0xfd616b15; 0x2f501ec8; 0xad0552ab; 0x323db5fa; 0xfd238760;
   0x53317b48; 0x3e00df82; 0x9e5c57bb; 0xca6f8ca0; 0x1a87562e; 0xdf1769db;
   0xd542a8f6; 0x287effc3; 0xac6732c6; 0x8c4f5573; 0x695b27b0; 0xbbca58c8;
   0xe1ffa35d; 0xb8f011a0; 0x10fa3d98; 0xfd2183b8; 0x4afcb56c; 0x2dd1d35b;
   0x9a53e479; 0xb6f84565; 0xd28e49bc; 0x4bfb9790; 0xe1ddf2da; 0xa4cb7e33;
   0x62fb1341; 0xcee4c6e8; 0xef20cada; 0x36774c01; 0xd07e9efe; 0x2bf11fb4;
   0x95dbda4d; 0xae909198; 0xeaad8e71; 0x6b93d5a0; 0xd08ed1d0; 0xafc725e0;
   0x8e3c5b2f; 0x8e7594b7; 0x8ff6e2fb; 0xf2122b64; 0x8888b812; 0x900df01c;
   0x4fad5ea0; 0x688fc31c; 0xd1cff191; 0xb3a8c1ad; 0x2f2f2218; 0xbe0e1777;
   0xea752dfe; 0x8b021fa1; 0xe5a0cc0f; 0xb56f74e8; 0x18acf3d6; 0xce89e299;
   0xb4a84fe0; 0xfd13e0b7; 0x7cc43b81; 0xd2ada8d9; 0x165fa266; 0x80957705;
   0x93cc7314; 0x211a1477; 0xe6ad2065; 0x77b5fa86; 0xc75442f5; 0xfb9d35cf;
   0xebcdaf0c; 0x7b3e89a0; 0xd6411bd3; 0xae1e7e49; 0x00250e2d; 0x2071b35e;
   0x226800bb; 0x57b8e0af; 0x2464369b; 0xf009b91e; 0x5563911d; 0x59dfa6aa;
   0x78c14389; 0xd95a537f; 0x207d5ba2; 0x02e5b9c5; 0x83260376; 0x6295cfa9;
   0x11c81968; 0x4e734a41; 0xb3472dca; 0x7b14a94a; 0x1b510052; 0x9a532915;
   0xd60f573f; 0xbc9bc6e4; 0x2b60a476; 0x81e67400; 0x08ba6fb5; 0x571be91f;
   0xf296ec6b; 0x2a0dd915; 0xb6636521; 0xe7b9f9b6; 0xff34052e; 0xc5855664;
   0x53b02d5d; 0xa99f8fa1; 0x08ba4799; 0x6e85076a; 0x4b7a70e9; 0xb5b32944;
   0xdb75092e; 0xc4192623; 0xad6ea6b0; 0x49a7df7d; 0x9cee60b8; 0x8fedb266;
   0xecaa8c71; 0x699a17ff; 0x5664526c; 0xc2b19ee1; 0x193602a5; 0x75094c29;
   0xa0591340; 0xe4183a3e; 0x3f54989a; 0x5b429d65; 0x6b8fe4d6; 0x99f73fd6;
   0xa1d29c07; 0xefe830f5; 0x4d2d38e6; 0xf0255dc1; 0x4cdd2086; 0x8470eb26;
   0x6382e9c6; 0x021ecc5e; 0x09686b3f; 0x3ebaefc9; 0x3c971814; 0x6b6a70a1;
   0x687f3584; 0x52a0e286; 0xb79c5305; 0xaa500737; 0x3e07841c; 0x7fdeae5c;
   0x8e7d44ec; 0x5716f2b8; 0xb03ada37; 0xf0500c0d; 0xf01c1f04; 0x0200b3ff;
   0xae0cf51a; 0x3cb574b2; 0x25837a58; 0xdc0921bd; 0xd19113f9; 0x7ca92ff6;
   0x94324773; 0x22f54701; 0x3ae5e581; 0x37c2dadc; 0xc8b57634; 0x9af3dda7;
   0xa9446146; 0x0fd0030e; 0xecc8c73e; 0xa4751e41; 0xe238cd99; 0x3bea0e2f;
   0x3280bba1; 0x183eb331; 0x4e548b38; 0x4f6db908; 0x6f420d03; 0xf60a04bf;
   0x2cb81290; 0x24977c79; 0x5679b072; 0xbcaf89af; 0xde9a771f; 0xd9930810;
   0xb38bae12; 0xdccf3f2e; 0x5512721f; 0x2e6b7124; 0x501adde6; 0x9f84cd87;
   0x7a584718; 0x7408da17; 0xbc9f9abc; 0xe94b7d8c; 0xec7aec3a; 0xdb851dfa;
   0x63094366; 0xc464c3d2; 0xef1c1847; 0x3215d908; 0xdd433b37; 0x24c2ba16;
   0x12a14d43; 0x2a65c451; 0x50940002; 0x133ae4dd; 0x71dff89e; 0x10314e55;
   0x81ac77d6; 0x5f11199b; 0x043556f1; 0xd7a3c76b; 0x3c11183b; 0x5924a509;
   0xf28fe6ed; 0x97f1fbfa; 0x9ebabf2c; 0x1e153c6e; 0x86e34570; 0xeae96fb1;
   0x860e5e0a; 0x5a3e2ab3; 0x771fe71c; 0x4e3d06fa; 0x2965dcb9; 0x99e71d0f;
   0x803e89d6; 0x5266c825; 0x2e4cc978; 0x9c10b36a; 0xc6150eba; 0x94e2ea78;
   0xa5fc3c53; 0x1e0a2df4; 0xf2f74ea7; 0x361d2b3d; 0x1939260f; 0x19c27960;
   0x5223a708; 0xf71312b6; 0xebadfe6e; 0xeac31f66; 0xe3bc4595; 0xa67bc883;
   0xb17f37d1; 0x018cff28; 0xc332ddef; 0xbe6c5aa5; 0x65582185; 0x68ab9802;
   0xeecea50f; 0xdb2f953b; 0x2aef7dad; 0x5b6e2f84; 0x1521b628; 0x29076170;
   0xecdd4775; 0x619f1510; 0x13cca830; 0xeb61bd96; 0x0334fe1e; 0xaa0363cf;
   0xb5735c90; 0x4c70a239; 0xd59e9e0b; 0xcbaade14; 0xeecc86bc; 0x60622ca7;
   0x9cab5cab; 0xb2f3846e; 0x648b1eaf; 0x19bdf0ca; 0xa02369b9; 0x655abb50;
   0x40685a32; 0x3c2ab4b3; 0x319ee9d5; 0xc021b8f7; 0x9b540b19; 0x875fa099;
   0x95f7997e; 0x623d7da8; 0xf837889a; 0x97e32d77; 0x11ed935f; 0x16681281;
   0x0e358829; 0xc7e61fd6; 0x96dedfa1; 0x7858ba99; 0x57f584a5; 0x1b227263;
   0x9b83c3ff; 0x1ac24696; 0xcdb30aeb; 0x532e3054; 0x8fd948e4; 0x6dbc3128;
   0x58ebf2ef; 0x34c6ffea; 0xfe28ed61; 0xee7c3c73; 0x5d4a14d9; 0xe864b7e3;
   0x42105d14; 0x203e13e0; 0x45eee2b6; 0xa3aaabea; 0xdb6c4f15; 0xfacb4fd0;
   0xc742f442; 0xef6abbb5; 0x654f3b1d; 0x41cd2105; 0xd81e799e; 0x86854dc7;
   0xe44b476a; 0x3d816250; 0xcf62a1f2; 0x5b8d2646; 0xfc8883a0; 0xc1c7b6a3;
   0x7f1524c3; 0x69cb7492; 0x47848a0b; 0x5692b285; 0x095bbf00; 0xad19489d;
   0x1462b174; 0x23820e00; 0x58428d2a; 0x0c55f5ea; 0x1dadf43e; 0x233f7061;
   0x3372f092; 0x8d937e41; 0xd65fecf1; 0x6c223bdb; 0x7cde3759; 0xcbee7460;
   0x4085f2a7; 0xce77326e; 0xa6078084; 0x19f8509e; 0xe8efd855; 0x61d99735;
   0xa969a7aa; 0xc50c06c2; 0x5a04abfc; 0x800bcadc; 0x9e447a2e; 0xc3453484;
   0xfdd56705; 0x0e1e9ec9; 0xdb73dbd3; 0x105588cd; 0x675fda79; 0xe3674340;
   0xc5c43465; 0x713e38d8; 0x3d28f89e; 0xf16dff20; 0x153e21e7; 0x8fb03d4a;
   0xe6e39f2b; 0xdb83adf7; 0xe93d5a68; 0x948140f7; 0xf64c261c; 0x94692934;
   0x411520f7; 0x7602d4f7; 0xbcf46b2e; 0xd4a20068; 0xd4082471; 0x3320f46a;
   0x43b7d4b7; 0x500061af; 0x1e39f62e; 0x97244546; 0x14214f74; 0xbf8b8840;
   0x4d95fc1d; 0x96b591af; 0x70f4ddd3; 0x66a02f45; 0xbfbc09ec; 0x03bd9785;
   0x7fac6dd0; 0x31cb8504; 0x96eb27b3; 0x55fd3941; 0xda2547e6; 0xabca0a9a;
   0x28507825; 0x530429f4; 0x0a2c86da; 0xe9b66dfb; 0x68dc1462; 0xd7486900;
   0x680ec0a4; 0x27a18dee; 0x4f3ffea2; 0xe887ad8c; 0xb58ce006; 0x7af4d6b6;
   0xaace1e7c; 0xd3375fec; 0xce78a399; 0x406b2a42; 0x20fe9e35; 0xd9f385b9;
   0xee39d7ab; 0x3b124e8b; 0x1dc9faf7; 0x4b6d1856; 0x26a36631; 0xeae397b2;
   0x3a6efa74; 0xdd5b4332; 0x6841e7f7; 0xca7820fb; 0xfb0af54e; 0xd8feb397;
   0x454056ac; 0xba489527; 0x55533a3a; 0x20838d87; 0xfe6ba9b7; 0xd096954b;
   0x55a867bc; 0xa1159a58; 0xcca92963; 0x99e1db33; 0xa62a4a56; 0x3f3125f9;
   0x5ef47e1c; 0x9029317c; 0xfdf8e802; 0x04272f70; 0x80bb155c; 0x05282ce3;
   0x95c11548; 0xe4c66d22; 0x48c1133f; 0xc70f86dc; 0x07f9c9ee; 0x41041f0f;
   0x404779a4; 0x5d886e17; 0x325f51eb; 0xd59bc0d1; 0xf2bcc18f; 0x41113564;
   0x257b7834; 0x602a9c60; 0xdff8e8a3; 0x1f636c1b; 0x0e12b4c2; 0x02e1329e;
   0xaf664fd1; 0xcad18115; 0x6b2395e0; 0x333e92e1; 0x3b240b62; 0xeebeb922;
   0x85b2a20e; 0xe6ba0d99; 0xde720c8c; 0x2da2f728; 0xd0127845; 0x95b794fd;
   0x647d0862; 0xe7ccf5f0; 0x5449a36f; 0x877d48fa; 0xc39dfd27; 0xf33e8d1e;
   0x0a476341; 0x992eff74; 0x3a6f6eab; 0xf4f8fd37; 0xa812dc60; 0xa1ebddf8;
   0x991be14c; 0xdb6e6b0d; 0xc67b5510; 0x6d672c37; 0x2765d43b; 0xdcd0e804;
   0xf1290dc7; 0xcc00ffa3; 0xb5390f92; 0x690fed0b; 0x667b9ffb; 0xcedb7d9c;
   0xa091cf0b; 0xd9155ea3; 0xbb132f88; 0x515bad24; 0x7b9479bf; 0x763bd6eb;
   0x37392eb3; 0xcc115979; 0x8026e297; 0xf42e312d; 0x6842ada7; 0xc66a2b3b;
   0x12754ccc; 0x782ef11c; 0x6a124237; 0xb79251e7; 0x06a1bbe6; 0x4bfb6350;
   0x1a6b1018; 0x11caedfa; 0x3d25bdd8; 0xe2e1c3c9; 0x44421659; 0x0a121386;
   0xd90cec6e; 0xd5abea2a; 0x64af674e; 0xda86a85f; 0xbebfe988; 0x64e4c3fe;
   0x9dbc8057; 0xf0f7c086; 0x60787bf8; 0x6003604d; 0xd1fd8346; 0xf6381fb0;
   0x7745ae04; 0xd736fccc; 0x83426b33; 0xf01eab71; 0xb0804187; 0x3c005e5f;
   0x77a057be; 0xbde8ae24; 0x55464299; 0xbf582e61; 0x4e58f48f; 0xf2ddfda2;
   0xf474ef38; 0x8789bdc2; 0x5366f9c3; 0xc8b38e74; 0xb475f255; 0x46fcd9b9;
   0x7aeb2661; 0x8b1ddf84; 0x846a0e79; 0x915f95e2; 0x466e598e; 0x20b45770;
   0x8cd55591; 0xc902de4c; 0xb90bace1; 0xbb8205d0; 0x11a86248; 0x7574a99e;
   0xb77f19b6; 0xe0a9dc09; 0x662d09a1; 0xc4324633; 0xe85a1f02; 0x09f0be8c;
   0x4a99a025; 0x1d6efe10; 0x1ab93d1d; 0x0ba5a4df; 0xa186f20f; 0x2868f169;
   0xdcb7da83; 0x573906fe; 0xa1e2ce9b; 0x4fcd7f52; 0x50115e01; 0xa70683fa;
   0xa002b5c4; 0x0de6d027; 0x9af88c27; 0x773f8641; 0xc3604c06; 0x61a806b5;
   0xf0177a28; 0xc0f586e0; 0x006058aa; 0x30dc7d62; 0x11e69ed7; 0x2338ea63;
   0x53c2dd94; 0xc2c21634; 0xbbcbee56; 0x90bcb6de; 0xebfc7da1; 0xce591d76;
   0x6f05e409; 0x4b7c0188; 0x39720a3d; 0x7c927c24; 0x86e3725f; 0x724d9db9;
   0x1ac15bb4; 0xd39eb8fc; 0xed545578; 0x08fca5b5; 0xd83d7cd3; 0x4dad0fc4;
   0x1e50ef5e; 0xb161e6f8; 0xa28514d9; 0x6c51133c; 0x6fd5c7e7; 0x56e14ec4;
   0x362abfce; 0xddc6c837; 0xd79a3234; 0x92638212; 0x670efa8e; 0x406000e0;
   0x3a39ce37; 0xd3faf5cf; 0xabc27737; 0x5ac52d1b; 0x5cb0679e; 0x4fa33742;
   0xd3822740; 0x99bc9bbe; 0xd5118e9d; 0xbf0f7315; 0xd62d1c7e; 0xc700c47b;
   0xb78c1b6b; 0x21a19045; 0xb26eb1be; 0x6a366eb4; 0x5748ab2f; 0xbc946e79;
   0xc6a376d2; 0x6549c2c8; 0x530ff8ee; 0x468dde7d; 0xd5730a1d; 0x4cd04dc6;
   0x2939bbdb; 0xa9ba4650; 0xac9526e8; 0xbe5ee304; 0xa1fad5f0; 0x6a2d519a;
   0x63ef8ce2; 0x9a86ee22; 0xc089c2b8; 0x43242ef6; 0xa51e03aa; 0x9cf2d0a4;
   0x83c061ba; 0x9be96a4d; 0x8fe51550; 0xba645bd6; 0x2826a2f9; 0xa73a3ae1;
   0x4ba99586; 0xef5562e9; 0xc72fefd3; 0xf752f7da; 0x3f046f69; 0x77fa0a59;
   0x80e4a915; 0x87b08601; 0x9b09e6ad; 0x3b3ee593; 0xe990fd5a; 0x9e34d797;
   0x2cf0b7d9; 0x022b8b51; 0x96d5ac3a; 0x017da67d; 0xd1cf3ed6; 0x7c7d2d28;
   0x1f9f25cf; 0xadf2b89b; 0x5ad6b472; 0x5a88f54c; 0xe029ac71; 0xe019a5e6;
   0x47b0acfd; 0xed93fa9b; 0xe8d3c48d; 0x283b57cc; 0xf8d56629; 0x79132e28;
   0x785f0191; 0xed756055; 0xf7960e44; 0xe3d35e8c; 0x15056dd4; 0x88f46dba;
   0x03a16125; 0x0564f0bd; 0xc3eb9e15; 0x3c9057a2; 0x97271aec; 0xa93a072a;
   0x1b3f6d9b; 0x1e6321f5; 0xf59c66fb; 0x26dcf319; 0x7533d928; 0xb155fdf5;
   0x03563482; 0x8aba3cbb; 0x28517711; 0xc20ad9f8; 0xabcc5167; 0xccad925f;
   0x4de81751; 0x3830dc8e; 0x379d5862; 0x9320f991; 0xea7a90c2; 0xfb3e7bce;
   0x5121ce64; 0x774fbe32; 0xa8b6e37e; 0xc3293d46; 0x48de5369; 0x6413e680;
   0xa2ae0810; 0xdd6db224; 0x69852dfd; 0x09072166; 0xb39a460a; 0x6445c0dd;
   0x586cdecf; 0x1c20c8ae; 0x5bbef7dd; 0x1b588d40; 0xccd2017f; 0x6bb4e3bb;
   0xdda26a7e; 0x3a59ff45; 0x3e350a44; 0xbcb4cdd5; 0x72eacea8; 0xfa6484bb;
   0x8d6612ae; 0xbf3c6f47; 0xd29be463; 0x542f5d9e; 0xaec2771b; 0xf64e6370;
   0x740e0d8d; 0xe75b1357; 0xf8721671; 0xaf537d5d; 0x4040cb08; 0x4eb4e2cc;
   0x34d2466a; 0x0115af84; 0xe1b00428; 0x95983a1d; 0x06b89fb4; 0xce6ea048;
   0x6f3f3b82; 0x3520ab82; 0x011a1d4b; 0x277227f8; 0x611560b1; 0xe7933fdc;
   0xbb3a792b; 0x344525bd; 0xa08839e1; 0x51ce794b; 0x2f32c9b7; 0xa01fbac9;
   0xe01cc87e; 0xbcc7d1f6; 0xcf0111c3; 0xa1e8aac7; 0x1a908749; 0xd44fbd9a;
   0xd0dadecb; 0xd50ada38; 0x0339c32a; 0xc6913667; 0x8df9317c; 0xe0b12b4f;
   0xf79e59b7; 0x43f5bb3a; 0xf2d519ff; 0x27d9459c; 0xbf97222c; 0x15e6fc2a;
   0x0f91fc71; 0x9b941525; 0xfae59361; 0xceb69ceb; 0xc2a86459; 0x12baa8d1;
   0xb6c1075e; 0xe3056a0c; 0x10d25065; 0xcb03a442; 0xe0ec6e0e; 0x1698db3b;
   0x4c98a0be; 0x3278e964; 0x9f1f9532; 0xe0d392df; 0xd3a0342b; 0x8971f21e;
   0x1b0a7441; 0x4ba3348c; 0xc5be7120; 0xc37632d8; 0xdf359f8d; 0x9b992f2e;
   0xe60b6f47; 0x0fe3f11d; 0xe54cda54; 0x1edad891; 0xce6279cf; 0xcd3e7e6f;
   0x1618b166; 0xfd2c1d05; 0x848fd2c5; 0xf6fb2299; 0xf523f357; 0xa6327623;
   0x93a83531; 0x56cccd02; 0xacf08162; 0x5a75ebb5; 0x6e163697; 0x88d273cc;
   0xde966292; 0x81b949d0; 0x4c50901b; 0x71c65614; 0xe6c6c7bd; 0x327a140a;
   0x45e1d006; 0xc3f27b9a; 0xc9aa53fd; 0x62a80f00; 0xbb25bfe2; 0x35bdd2f6;
   0x71126905; 0xb2040222; 0xb6cbcf7c; 0xcd769c2b; 0x53113ec0; 0x1640e3d3;
   0x38abbd60; 0x2547adf0; 0xba38209c; 0xf746ce76; 0x77afa1c5; 0x20756060;
   0x85cbfe4e; 0x8ae88dd8; 0x7aaaf9b0; 0x4cf9aa7e; 0x1948c25c; 0x02fb8a8c;
   0x01c36ae4; 0xd6ebe1f9; 0x90d4f869; 0xa65cdea0; 0x3f09252d; 0xc208e69f;
   0xb74e6132; 0xce77e25b; 0x578fdfe3; 0x3ac372e6
  ].

(** The object once [SetKey] has copied the constants in. *)
Definition constants : Blowfish := mkBlowfish initial_pary initial_sbox.

End Pi.

(** * Running computations *)

Lemma bind_returns {A B : Type} (m : M A) (k : A -> M B) this a this' :
  m this = (Returns a, this') -> bind m k this = k a this'.
Proof. intros H. unfold bind. rewrite H. reflexivity. Qed.


(** A loop whose body cannot fault is the iteration of a step on the pair
    of the carried variables and the object. *)
Lemma for_loop_run {A : Type} (body : Z -> A -> M A)
    (step : Z -> A * Blowfish -> A * Blowfish) :
  (forall i a this,
     body i a this = (Returns (fst (step i (a, this))), snd (step i (a, this)))) ->
  forall count i a this,
    for_loop count i body a this =
    (Returns (fst (iter_loop count i step (a, this))),
     snd (iter_loop count i step (a, this))).
Proof.
  intros Hbody count. induction count as [|count IH]; intros i a this.
  - reflexivity.
  - cbn [for_loop iter_loop]. rewrite (bind_returns _ _ _ _ _ (Hbody i a this)).
    rewrite IH. destruct (step i (a, this)); reflexivity.
Qed.

(** The same for a body that only reads the object. *)
Lemma for_loop_const {A : Type} (body : Z -> A -> M A) (g : Z -> A -> A) this :
  (forall i a, body i a this = (Returns (g i a), this)) ->
  forall count i a,
    for_loop count i body a this = (Returns (iter_loop count i g a), this).
Proof.
  intros Hbody count. induction count as [|count IH]; intros i a.
  - reflexivity.
  - cbn [for_loop iter_loop]. rewrite (bind_returns _ _ _ _ _ (Hbody i a)).
    apply IH.
Qed.

Lemma iter_loop_ext {T : Type} (f g : Z -> T -> T) count :
  forall i s,
    (forall k s', (k < count)%nat -> f (i + Z.of_nat k) s' = g (i + Z.of_nat k) s') ->
    iter_loop count i f s = iter_loop count i g s.
Proof.
  induction count as [|count IH]; intros i s H; [reflexivity|].
  cbn [iter_loop]. pose proof (H 0%nat s ltac:(lia)) as H0.
  rewrite Z.add_0_r in H0. rewrite H0. apply IH. intros k s' Hk.
  specialize (H (S k) s' ltac:(lia)).
  replace (i + 1 + Z.of_nat k) with (i + Z.of_nat (S k)) by lia. exact H.
Qed.

(** A loop read as a fold over the list of its indices. *)
Lemma iter_loop_fold {T : Type} (step : Z -> T -> T) (step' : nat -> T -> T)
    count :
  forall i j s,
    (forall k s', (k < count)%nat -> step (i + Z.of_nat k) s' = step' (j + k)%nat s') ->
    iter_loop count i step s = fold_left (fun s n => step' n s) (seq j count) s.
Proof.
  induction count as [|count IH]; intros i j s H; [reflexivity|].
  cbn [iter_loop seq fold_left]. pose proof (H 0%nat s ltac:(lia)) as H0.
  rewrite Z.add_0_r, Nat.add_0_r in H0. rewrite H0. apply IH. intros k s' Hk.
  specialize (H (S k) s' ltac:(lia)).
  replace (i + 1 + Z.of_nat k) with (i + Z.of_nat (S k)) by lia.
  replace (S j + k)%nat with (j + S k)%nat by lia. exact H.
Qed.

(** * The Feistel network *)

Section Network.

Variable F : Z -> Z.

Lemma lxor_cancel (a b : Z) : Z.lxor (Z.lxor a b) b = a.
Proof. rewrite Z.lxor_assoc, Z.lxor_nilpotent. apply Z.lxor_0_r. Qed.

Lemma lxor_swap (a b c : Z) : Z.lxor (Z.lxor a b) c = Z.lxor (Z.lxor a c) b.
Proof. rewrite !Z.lxor_assoc. f_equal. apply Z.lxor_comm. Qed.

Lemma whiten_whiten k b : whiten k (whiten k b) = b.
Proof. destruct b as [L R]. cbn. rewrite lxor_cancel. reflexivity. Qed.

Lemma swap_swap b : swap (swap b) = b.
Proof. destruct b; reflexivity. Qed.

Lemma keyed_round_swap k b :
  keyed_round F k (swap (keyed_round F k b)) = swap b.
Proof.
  destruct b as [L R]. cbn.
  rewrite (lxor_swap (Z.lxor R (F L)) k (F L)), lxor_cancel, lxor_cancel.
  reflexivity.
Qed.

Lemma keyed_rounds_swap ks :
  forall b, keyed_rounds F (rev ks) (swap (keyed_rounds F ks b)) = swap b.
Proof.
  unfold keyed_rounds. induction ks as [|k ks IH]; intros b.
  - reflexivity.
  - cbn [rev fold_left]. rewrite fold_left_app. cbn [fold_left].
    rewrite IH. apply keyed_round_swap.
Qed.

Lemma whiten_round k k' b :
  whiten k' (round F k b) = keyed_round F k' (whiten k b).
Proof. destruct b as [L R]. reflexivity. Qed.

Lemma whiten_rounds ks :
  forall k k' b,
    whiten k' (rounds F (k :: ks) b) = keyed_rounds F (ks ++ [k']) (whiten k b).
Proof.
  unfold rounds, keyed_rounds.
  induction ks as [|k2 ks IH]; intros k k' b.
  - cbn [fold_left app]. apply whiten_round.
  - cbn [fold_left app]. cbn [fold_left] in IH. rewrite IH.
    rewrite whiten_round. reflexivity.
Qed.

Lemma finish_whiten ka kb b : finish ka kb b = whiten kb (swap (whiten ka b)).
Proof. destruct b; reflexivity. Qed.

End Network.

(** * The block cipher *)

Section BlockCipher.

Variable cfg : build.

Lemma Feistel_run value this :
  Feistel cfg value this = (Returns (Feistel_value cfg this value), this).
Proof. reflexivity. Qed.

Lemma EncryptBlock_run block this :
  EncryptBlock cfg block this = (Returns (encrypt_value cfg this block), this).
Proof.
  unfold EncryptBlock, for_.
  erewrite bind_returns; cycle 1.
  { apply (for_loop_const _
             (fun i b => round (Feistel_value cfg this) (subkey this i) b)).
    intros i [L R]. reflexivity. }
  unfold encrypt_value, rounds.
  change (Z.to_nat 16) with 16%nat. cbn [iter_loop map fold_left].
  destruct (round _ _ _) as [L R]. reflexivity.
Qed.

Lemma DecryptBlock_run block this :
  DecryptBlock cfg block this = (Returns (decrypt_value cfg this block), this).
Proof.
  unfold DecryptBlock, for_.
  erewrite bind_returns; cycle 1.
  { apply (for_loop_const _
             (fun i b => round (Feistel_value cfg this) (subkey this (17 - i)) b)).
    intros i [L R]. reflexivity. }
  unfold decrypt_value, rounds.
  change (Z.to_nat 16) with 16%nat. cbn [iter_loop map fold_left].
  destruct (round _ _ _) as [L R]. reflexivity.
Qed.

Lemma decrypt_encrypt_value this block :
  decrypt_value cfg this (encrypt_value cfg this block) = block.
Proof.
  unfold decrypt_value, encrypt_value.
  rewrite !finish_whiten.
  cbn [map].
  rewrite !whiten_rounds.
  rewrite whiten_whiten.
  match goal with
  | |- context [keyed_rounds ?F ?ks (swap (keyed_rounds ?F ?ks' ?b))] =>
      change ks with (rev ks')
  end.
  rewrite keyed_rounds_swap, swap_swap. apply whiten_whiten.
Qed.

End BlockCipher.

(** C1.  For every state of the object, so in particular for every state a
    completed key schedule leaves, and for every block [(l, r)]: running
    [EncryptBlock] and then [DecryptBlock] on its result returns [(l, r)],
    and the object after the two calls is the object before them.  Each of
    the two calls on its own returns with the object as it found it. *)
Theorem DecryptBlock_EncryptBlock (cfg : build) (this : Blowfish) (l r : Z) :
  (block <- EncryptBlock cfg (l, r) ;; DecryptBlock cfg block) this
    = (Returns (l, r), this)
  /\ snd (EncryptBlock cfg (l, r) this) = this
  /\ snd (DecryptBlock cfg (l, r) this) = this.
Proof.
  split; [|split].
  - rewrite (bind_returns _ _ _ _ _ (EncryptBlock_run cfg (l, r) this)).
    rewrite DecryptBlock_run, decrypt_encrypt_value. reflexivity.
  - rewrite EncryptBlock_run. reflexivity.
  - rewrite DecryptBlock_run. reflexivity.
Qed.

(** * Converter32 and the round function *)

Section Converter.

Variable cfg : build.

Lemma byte_unsigned_of_Z_shiftr (x n : Z) :
  0 <= n -> byte.unsigned (byte.of_Z (Z.shiftr x (8 * n))) = byte_of x n.
Proof. intros _. rewrite byte.unsigned_of_Z. reflexivity. Qed.

Lemma le_split_4 (v : Z) :
  le_split 4 v =
  [byte.of_Z (Z.shiftr v (8 * 0)); byte.of_Z (Z.shiftr v (8 * 1));
   byte.of_Z (Z.shiftr v (8 * 2)); byte.of_Z (Z.shiftr v (8 * 3))].
Proof.
  change (8 * 0) with 0. change (8 * 1) with 8.
  change (8 * 2) with (8 + 8). change (8 * 3) with (8 + (8 + 8)).
  rewrite <- !Z.shiftr_shiftr by lia. rewrite Z.shiftr_0_r. reflexivity.
Qed.

(** On a build whose macro agrees with the host, [byte0] is the most
    significant byte of [bit_32] and [byte3] the least significant. *)
Lemma get_byte_configured (v : Z) (k : nat) :
  configured cfg -> (k <= 3)%nat ->
  get_byte cfg k (set_bit_32 cfg v) = byte.of_Z (Z.shiftr v (8 * (3 - Z.of_nat k))).
Proof.
  unfold configured, get_byte, set_bit_32, offset_of_byte.
  intros Hc Hk. rewrite le_split_4.
  destruct (host cfg); rewrite Hc;
    destruct k as [|[|[|[|k]]]]; try lia; reflexivity.
Qed.

(** On a build whose macro disagrees with the host it is the other way
    round. *)
Lemma get_byte_misconfigured (v : Z) (k : nat) :
  ~ configured cfg -> (k <= 3)%nat ->
  get_byte cfg k (set_bit_32 cfg v) = byte.of_Z (Z.shiftr v (8 * Z.of_nat k)).
Proof.
  unfold configured, get_byte, set_bit_32, offset_of_byte.
  intros Hc Hk. rewrite le_split_4.
  destruct (host cfg); destruct (LITTLE_ENDIAN_defined cfg);
    try (exfalso; apply Hc; reflexivity);
    destruct k as [|[|[|[|k]]]]; try lia; reflexivity.
Qed.

Lemma Feistel_value_configured this x :
  configured cfg -> Feistel_value cfg this x = F_msb_first this x.
Proof.
  intros Hc. unfold Feistel_value, F_msb_first, table.
  rewrite !(get_byte_configured _ _ Hc) by lia.
  cbn [Z.of_nat Pos.of_succ_nat Pos.succ Z.sub Z.opp Z.add Z.pos_sub Pos.pred_double Z.succ_double Z.pred_double Z.double].
  rewrite !byte_unsigned_of_Z_shiftr by lia. reflexivity.
Qed.

Lemma Feistel_value_misconfigured this x :
  ~ configured cfg -> Feistel_value cfg this x = F_lsb_first this x.
Proof.
  intros Hc. unfold Feistel_value, F_lsb_first, table.
  rewrite !(get_byte_misconfigured _ _ Hc) by lia.
  cbn [Z.of_nat Pos.of_succ_nat Pos.succ].
  rewrite !byte_unsigned_of_Z_shiftr by lia. reflexivity.
Qed.

End Converter.

(** C5, as amended.  On a build whose endianness macro agrees with the
    host, [Feistel] returns [((table0[a] + table1[b]) XOR table2[c]) +
    table3[d]] with both additions modulo [2^32], where [a] is the most
    significant byte of [x], [b] the next, [c] the next and [d] the least
    significant; it returns with the object unchanged. *)
Theorem Feistel_most_significant_byte_first (cfg : build) (this : Blowfish) (x : Z) :
  configured cfg ->
  Feistel cfg x this = (Returns (F_msb_first this x), this).
Proof.
  intros Hc. rewrite Feistel_run, (Feistel_value_configured cfg this x Hc).
  reflexivity.
Qed.

Lemma Feistel_most_significant_byte_first_witness :
  configured little_endian_build /\
  Feistel little_endian_build 0x01020304 (mkBlowfish [] (map Z.of_nat (seq 0 1024)))
  = (Returns (F_msb_first (mkBlowfish [] (map Z.of_nat (seq 0 1024))) 0x01020304),
     mkBlowfish [] (map Z.of_nat (seq 0 1024))).
Proof.
  split; [reflexivity|].
  apply (Feistel_most_significant_byte_first little_endian_build). reflexivity.
Defined.

(** C5 as claimed fails.  With the tables holding the constants and
    [x = 1], [Feistel] on a little-endian host returns [0xc9911cb6], the
    word computed with [a] the most significant byte; the claim, with [a]
    the least significant byte, computes [0x47a14b34]. *)
Lemma Feistel_not_least_significant_byte_first :
  Feistel little_endian_build 1 Pi.constants = (Returns 0xc9911cb6, Pi.constants)
  /\ F_lsb_first Pi.constants 1 = 0x47a14b34
  /\ Feistel little_endian_build 1 Pi.constants
     <> (Returns (F_lsb_first Pi.constants 1), Pi.constants).
Proof.
  assert (Hv : Feistel_value little_endian_build Pi.constants 1 = 0xc9911cb6)
    by (vm_compute; reflexivity).
  assert (Hc : F_lsb_first Pi.constants 1 = 0x47a14b34)
    by (vm_compute; reflexivity).
  rewrite Feistel_run, Hv, Hc. split; [reflexivity|]. split; [reflexivity|].
  intros H. apply (f_equal fst) in H. cbn [fst] in H. discriminate H.
Qed.

(** The claimed byte order is what a build computes whose macro disagrees
    with its host. *)
Remark Feistel_misconfigured (cfg : build) (this : Blowfish) (x : Z) :
  ~ configured cfg ->
  Feistel cfg x this = (Returns (F_lsb_first this x), this).
Proof.
  intros Hc. rewrite Feistel_run, (Feistel_value_misconfigured cfg this x Hc).
  reflexivity.
Qed.

(** * GCD *)

Lemma GCD_loop_eq (gcd_prev gcd : Z) :
  GCD_loop gcd_prev gcd =
  if gcd =? 0 then Faults DivisionByZero
  else if rem_overflows gcd_prev gcd then Faults RemainderOverflow
  else if Z.rem gcd_prev gcd =? 0 then Returns gcd
  else GCD_loop gcd (Z.rem gcd_prev gcd).
Proof.
  rewrite GCD_loop_equation_1.
  destruct (Z.eq_dec gcd 0) as [->|Hg]; cbn.
  - reflexivity.
  - rewrite (proj2 (Z.eqb_neq gcd 0) Hg).
    destruct (rem_overflows gcd_prev gcd); cbn; [reflexivity|].
    destruct (Z.eq_dec (Z.rem gcd_prev gcd) 0) as [Hr|Hr]; cbn.
    + rewrite Hr. reflexivity.
    + rewrite (proj2 (Z.eqb_neq _ 0) Hr). reflexivity.
Qed.

(** No remainder overflows where the dividend is not [INT_MIN] or the
    divisor is not [-1]. *)
Lemma rem_overflows_false (a b : Z) :
  a <> INT_MIN \/ b <> -1 -> rem_overflows a b = false.
Proof.
  intros H. unfold rem_overflows. apply andb_false_iff.
  destruct H as [H|H]; [left|right]; apply Z.eqb_neq; exact H.
Qed.

(** What [GCD(byte_length, 4)] returns, by the remainder of [byte_length]. *)
Lemma GCD_4 (n : Z) :
  GCD n 4 = Returns (if Z.rem n 4 =? 0 then 4
                     else if Z.rem n 4 =? 3 then 1
                     else if Z.rem n 4 =? -3 then 1
                     else Z.rem n 4).
Proof.
  unfold GCD. rewrite GCD_loop_eq. change (4 =? 0) with false. cbv iota.
  rewrite (rem_overflows_false n 4) by (right; discriminate).
  pose proof (Z.rem_bound_abs n 4 ltac:(lia)) as Hb.
  assert (Hr : Z.rem n 4 = 0 \/ Z.rem n 4 = 1 \/ Z.rem n 4 = 2 \/ Z.rem n 4 = 3
               \/ Z.rem n 4 = -1 \/ Z.rem n 4 = -2 \/ Z.rem n 4 = -3) by lia.
  destruct Hr as [Hr|[Hr|[Hr|[Hr|[Hr|[Hr|Hr]]]]]]; rewrite Hr; cbn;
    try reflexivity; rewrite GCD_loop_eq; cbn; try reflexivity;
    rewrite GCD_loop_eq; reflexivity.
Qed.

Lemma GCD_positive (n : Z) : 0 < n -> GCD n 4 = Returns (Z.gcd n 4).
Proof.
  intros Hn. rewrite GCD_4. f_equal.
  rewrite Z.rem_mod_nonneg by lia.
  rewrite (Z.gcd_comm n 4), <- (Z.gcd_mod n 4) by lia.
  pose proof (Z.mod_pos_bound n 4 ltac:(lia)) as Hb.
  assert (Hr : n mod 4 = 0 \/ n mod 4 = 1 \/ n mod 4 = 2 \/ n mod 4 = 3) by lia.
  destruct Hr as [Hr|[Hr|[Hr|Hr]]]; rewrite Hr; reflexivity.
Qed.

(** * Packing the key and folding it into the subkeys *)

Lemma rem_int_nonzero a b : b <> 0 -> rem_int a b = Returns (Z.rem a b).
Proof. intros H. unfold rem_int. rewrite (proj2 (Z.eqb_neq b 0) H). reflexivity. Qed.

Lemma div_int_nonzero a b : b <> 0 -> div_int a b = Returns (Z.quot a b).
Proof. intros H. unfold div_int. rewrite (proj2 (Z.eqb_neq b 0) H). reflexivity. Qed.

Lemma at_map_Zseq (f : Z -> Z) n :
  forall i j, 0 <= j < Z.of_nat n -> at_ (map f (Zseq i n)) j = f (i + j).
Proof.
  unfold at_. induction n as [|n IH]; intros i j Hj; [lia|].
  cbn [Zseq map]. destruct (Z.eq_dec j 0) as [->|Hne].
  - rewrite Z.add_0_r. reflexivity.
  - replace (Z.to_nat j) with (S (Z.to_nat (j - 1))) by lia.
    rewrite lookup_total_cons_ne_0 by lia. cbn [Nat.pred].
    rewrite IH by lia. f_equal. lia.
Qed.

Lemma iter_fill (f : Z -> Z) n :
  forall i pre, Z.of_nat (length pre) = i ->
    iter_loop n i (fun i kb => upd kb i (f i)) (pre ++ replicate n 0)
    = pre ++ map f (Zseq i n).
Proof.
  induction n as [|n IH]; intros i pre Hi.
  - reflexivity.
  - cbn [iter_loop replicate Zseq map]. unfold upd at 2.
    rewrite insert_app_r_alt by lia.
    replace (Z.to_nat i - length pre)%nat with 0%nat by lia.
    cbn [insert list_insert].
    rewrite (cons_middle (f i)), app_assoc. rewrite IH. 
    + rewrite <- app_assoc. reflexivity.
    + rewrite length_app. cbn. lia.
Qed.

Lemma iter_fill_0 (f : Z -> Z) n :
  iter_loop n 0 (fun i kb => upd kb i (f i)) (replicate n 0) = map f (Zseq 0 n).
Proof. apply (iter_fill f n 0 []). reflexivity. Qed.

Lemma iter_xor (h : Z -> Z) count :
  forall i p s,
    iter_loop count i
      (fun i (s : unit * Blowfish) =>
         (tt, mkBlowfish (upd (pary_ (snd s)) i (Z.lxor (at_ (pary_ (snd s)) i) (h i)))
                         (sbox_ (snd s))))
      (tt, mkBlowfish p s)
    = (tt, mkBlowfish
             (iter_loop count i (fun i p => upd p i (Z.lxor (at_ p i) (h i))) p) s).
Proof.
  induction count as [|count IH]; intros i p s; [reflexivity|].
  cbn [iter_loop]. cbn [snd pary_ sbox_]. apply IH.
Qed.

Section KeyingRun.

Variable cfg : build.
Variables initial_pary initial_sbox : list Z.

Lemma SetKey_keying_run key byte_length this g :
  byte_length <> 0 ->
  GCD byte_length 4 = Returns g ->
  g <> 0 ->
  0 < Z.quot byte_length g ->
  SetKey_keying cfg initial_pary initial_sbox key byte_length this =
  (Returns tt,
   mkBlowfish
     (xor_subkeys
        (fun i => at_ (map (key_word cfg key byte_length)
                           (Zseq 0 (Z.to_nat (Z.quot byte_length g))))
                      (Z.rem i (Z.quot byte_length g)))
        initial_pary)
     initial_sbox).
Proof.
  intros HL Hg Hg0 Hbl. unfold SetKey_keying, copy_constants.
  set (bl := Z.quot byte_length g) in *.
  unfold bind at 1. unfold bind at 1, lift at 1. rewrite Hg.
  unfold bind at 1, lift at 1. rewrite div_int_nonzero by assumption. fold bl.
  unfold bind at 1, lift at 1. unfold new_uint32.
  rewrite (proj2 (Z.ltb_ge bl 0)) by lia.
  unfold for_ at 1.
  erewrite bind_returns; cycle 1.
  { apply (for_loop_const _ (fun i kb => upd kb i (key_word cfg key byte_length i))).
    intros i kb. unfold bind, lift. rewrite !rem_int_nonzero by assumption.
    reflexivity. }
  rewrite iter_fill_0.
  unfold for_.
  erewrite for_loop_run; cycle 1.
  { intros i a st. unfold bind, lift. rewrite rem_int_nonzero by lia.
    unfold get_pary, set_pary.
    instantiate (1 := fun i s =>
      (tt, mkBlowfish (upd (pary_ (snd s)) i
                         (Z.lxor (at_ (pary_ (snd s)) i)
                            (at_ (map (key_word cfg key byte_length) (Zseq 0 (Z.to_nat bl)))
                                 (Z.rem i bl))))
                      (sbox_ (snd s)))).
    reflexivity. }
  rewrite (iter_xor (fun i => at_ (map (key_word cfg key byte_length) (Zseq 0 (Z.to_nat bl))) (Z.rem i bl))).
  reflexivity.
Qed.

End KeyingRun.

Lemma le_combine_4 (a b c d : byte) :
  le_combine [a; b; c; d] =
  Z.lor (byte.unsigned a)
    (Z.lor (Z.shiftl (byte.unsigned b) 8)
       (Z.lor (Z.shiftl (byte.unsigned c) 16) (Z.shiftl (byte.unsigned d) 24))).
Proof.
  change (le_combine [a; b; c; d]) with
    (Z.lor (byte.unsigned a) (Z.shiftl
       (Z.lor (byte.unsigned b) (Z.shiftl
          (Z.lor (byte.unsigned c) (Z.shiftl
             (Z.lor (byte.unsigned d) (Z.shiftl 0 8)) 8)) 8)) 8)).
  rewrite Z.shiftl_0_l, Z.lor_0_r, !Z.shiftl_lor, !Z.shiftl_shiftl by lia.
  reflexivity.
Qed.

Lemma lor_reverse (a b c d : Z) :
  Z.lor a (Z.lor b (Z.lor c d)) = Z.lor d (Z.lor c (Z.lor b a)).
Proof.
  apply Z.bits_inj'. intros n _. rewrite !Z.lor_spec.
  destruct (Z.testbit a n), (Z.testbit b n), (Z.testbit c n), (Z.testbit d n);
    reflexivity.
Qed.

Section Packing.

Variable cfg : build.

Lemma key_word_configured key L i :
  configured cfg ->
  key_word cfg key L i =
  le_combine [at_ key (Z.rem (i * 4 + 3) L); at_ key (Z.rem (i * 4 + 2) L);
              at_ key (Z.rem (i * 4 + 1) L); at_ key (Z.rem (i * 4) L)].
Proof.
  unfold configured, key_word, get_bit_32, set_byte, offset_of_byte.
  intros Hc. destruct (host cfg); rewrite Hc; reflexivity.
Qed.

Lemma key_word_misconfigured key L i :
  ~ configured cfg ->
  key_word cfg key L i =
  le_combine [at_ key (Z.rem (i * 4) L); at_ key (Z.rem (i * 4 + 1) L);
              at_ key (Z.rem (i * 4 + 2) L); at_ key (Z.rem (i * 4 + 3) L)].
Proof.
  unfold configured, key_word, get_bit_32, set_byte, offset_of_byte.
  intros Hc. destruct (host cfg); destruct (LITTLE_ENDIAN_defined cfg);
    try (exfalso; apply Hc; reflexivity); reflexivity.
Qed.

Lemma key_word_big_endian key L i :
  configured cfg -> 0 < L -> 0 <= i ->
  key_word cfg key L i = packed_word_big_endian key L i.
Proof.
  intros Hc HL Hi. rewrite (key_word_configured _ _ _ Hc), le_combine_4.
  unfold packed_word_big_endian, key_byte.
  rewrite !Z.rem_mod_nonneg by lia.
  apply lor_reverse.
Qed.

Lemma key_word_little_endian key L i :
  ~ configured cfg -> 0 < L -> 0 <= i ->
  key_word cfg key L i = packed_word_little_endian key L i.
Proof.
  intros Hc HL Hi. rewrite (key_word_misconfigured _ _ _ Hc), le_combine_4.
  unfold packed_word_little_endian, key_byte.
  rewrite !Z.rem_mod_nonneg by lia. reflexivity.
Qed.

End Packing.

Lemma wordCount_positive L : 0 < L -> 0 < wordCount L.
Proof.
  intros HL. unfold wordCount.
  pose proof (Z.gcd_nonneg L 4) as Hg.
  destruct (Z.gcd_divide_l L 4) as [q Hq].
  remember (Z.gcd L 4) as g eqn:Eg. clear Eg.
  assert (Hg0 : g <> 0) by (intros H0; rewrite H0 in Hq; lia).
  rewrite Hq, Z.div_mul by assumption. nia.
Qed.

Lemma four_wordCount L : 0 < L -> exists q, 4 * wordCount L = q * L.
Proof.
  intros HL. unfold wordCount.
  pose proof (Z.gcd_nonneg L 4) as Hg.
  destruct (Z.gcd_divide_l L 4) as [q Hq].
  destruct (Z.gcd_divide_r L 4) as [q4 Hq4].
  remember (Z.gcd L 4) as g eqn:Eg. clear Eg.
  assert (Hg0 : g <> 0) by (intros H0; rewrite H0 in Hq; lia).
  exists q4. rewrite Hq, Z.div_mul by assumption.
  replace (q4 * (q * g)) with ((q4 * g) * q) by ring. rewrite <- Hq4.
  reflexivity.
Qed.

Lemma rem_period L i k :
  0 < L -> 0 <= i -> 0 <= k ->
  Z.rem ((i mod wordCount L) * 4 + k) L = Z.rem (i * 4 + k) L.
Proof.
  intros HL Hi Hk. pose proof (wordCount_positive L HL) as Hw.
  pose proof (Z.mod_pos_bound i (wordCount L) Hw) as Hb.
  rewrite !Z.rem_mod_nonneg by lia.
  destruct (four_wordCount L HL) as [q Hq].
  rewrite (Z.div_mod i (wordCount L)) at 2 by lia.
  replace ((wordCount L * (i / wordCount L) + i mod wordCount L) * 4 + k)
    with ((i mod wordCount L) * 4 + k + (i / wordCount L * q) * L) by nia.
  rewrite Z_mod_plus_full. reflexivity.
Qed.

Lemma key_word_period cfg key L i :
  0 < L -> 0 <= i ->
  key_word cfg key L (i mod wordCount L) = key_word cfg key L i.
Proof.
  intros HL Hi. unfold key_word.
  pose proof (rem_period L i 0 HL Hi ltac:(lia)) as H0.
  rewrite !Z.add_0_r in H0.
  rewrite H0, (rem_period L i 1), (rem_period L i 2), (rem_period L i 3) by lia.
  reflexivity.
Qed.

Lemma xor_subkeys_ext (h h' : Z -> Z) p :
  (forall i, 0 <= i < 18 -> h i = h' i) -> xor_subkeys h p = xor_subkeys h' p.
Proof.
  intros H. unfold xor_subkeys. apply iter_loop_ext.
  intros k s Hk. rewrite H by lia. reflexivity.
Qed.

Lemma xor_subkeys_imap (h : Z -> Z) p :
  length p = 18%nat ->
  xor_subkeys h p = imap (fun i x => Z.lxor x (h (Z.of_nat i))) p.
Proof.
  intros Hp.
  do 18 (destruct p as [|? p]; [discriminate Hp|]).
  destruct p; [|discriminate Hp]. reflexivity.
Qed.

Section KeyingPositive.

Variable cfg : build.
Variables initial_pary initial_sbox : list Z.

Lemma quot_gcd_wordCount L : 0 < L -> Z.quot L (Z.gcd L 4) = wordCount L.
Proof.
  intros HL. unfold wordCount. apply Z.quot_div_nonneg; [lia|].
  pose proof (Z.gcd_nonneg L 4). 
  destruct (Z.eq_dec (Z.gcd L 4) 0) as [H0|H0]; [|lia].
  apply Z.gcd_eq_0_r in H0. discriminate H0.
Qed.

(** With a positive length, subkey [i] is XORed with the word packed from
    key bytes [4i .. 4i+3] of the key repeated for ever. *)
Lemma SetKey_keying_positive key L this :
  0 < L ->
  SetKey_keying cfg initial_pary initial_sbox key L this =
  (Returns tt, mkBlowfish (xor_subkeys (key_word cfg key L) initial_pary) initial_sbox).
Proof.
  intros HL. pose proof (wordCount_positive L HL) as Hw.
  pose proof (quot_gcd_wordCount L HL) as Hq.
  rewrite (SetKey_keying_run cfg _ _ key L this (Z.gcd L 4));
    [| lia | apply GCD_positive; exact HL
     | intros H0; apply Z.gcd_eq_0_r in H0; discriminate H0
     | rewrite Hq; exact Hw].
  rewrite Hq. f_equal. f_equal. apply xor_subkeys_ext. intros i Hi.
  rewrite Z.rem_mod_nonneg by lia.
  pose proof (Z.mod_pos_bound i (wordCount L) Hw) as Hb.
  rewrite at_map_Zseq by lia. rewrite Z.add_0_l.
  apply key_word_period; lia.
Qed.

End KeyingPositive.

(** The indices the packing loop forms for a key below [2^29] bytes are
    values of [int]. *)
Lemma packing_index_int_range (L i k : Z) :
  1 <= L < 2 ^ 29 -> 0 <= i < wordCount L -> 0 <= k <= 3 ->
  int_range (i * 4) /\ int_range (i * 4 + k) /\ int_range (wordCount L).
Proof.
  intros HL Hi Hk. unfold wordCount in *.
  pose proof (Z.gcd_nonneg L 4) as Hg.
  assert (Hg0 : Z.gcd L 4 <> 0)
    by (intros H0; apply Z.gcd_eq_0_r in H0; discriminate H0).
  assert (Hw : L / Z.gcd L 4 <= L)
    by (apply Z.div_le_upper_bound; nia).
  unfold int_range, INT_MIN, INT_MAX.
  change (2 ^ 29) with 536870912 in HL. change (2 ^ 31) with 2147483648.
  lia.
Qed.

(** C4, as amended.  On a build whose endianness macro agrees with the
    host, and for every key buffer holding at least [L] bytes with
    [1 <= L < 2^29], the lengths for which the indices of the packing loop
    are values of [int], lines 83-115 of the key schedule pack the key
    into [wordCount = L / gcd(L, 4)] words
    [word[i] = key[(4i) mod L] << 24 | key[(4i+1) mod L] << 16 |
    key[(4i+2) mod L] << 8 | key[(4i+3) mod L]], byte [b0] the most
    significant, and XOR subkey [i] with [packedWords[i mod wordCount]] for
    each [i] in [[0, 18)]; the tables hold the constants. *)
Theorem SetKey_keying_big_endian (cfg : build) (initial_pary initial_sbox : list Z)
    (key : list byte) (L : Z) (this : Blowfish) :
  configured cfg ->
  length initial_pary = 18%nat ->
  1 <= L <= Z.of_nat (length key) ->
  L < 2 ^ 29 ->
  SetKey_keying cfg initial_pary initial_sbox key L this =
  (Returns tt,
   mkBlowfish (keyed_subkeys (packed_word_big_endian key L) L initial_pary)
              initial_sbox).
Proof.
  intros Hc Hp HL _. rewrite SetKey_keying_positive by lia.
  f_equal. f_equal. rewrite xor_subkeys_imap by exact Hp.
  unfold keyed_subkeys, packedWords. apply imap_ext. intros i x _. cbn beta.
  f_equal.
  pose proof (wordCount_positive L ltac:(lia)) as Hw.
  pose proof (Z.mod_pos_bound (Z.of_nat i) (wordCount L) Hw) as Hb.
  rewrite at_map_Zseq by lia. rewrite Z.add_0_l.
  rewrite <- (key_word_period cfg key L (Z.of_nat i)) by lia.
  apply key_word_big_endian; [exact Hc | lia | lia].
Qed.

Lemma at_app_twice (k : list byte) (x : Z) :
  0 <= x -> (0 < length k)%nat ->
  at_ (k ++ k) (Z.rem x (2 * Z.of_nat (length k))) = at_ k (Z.rem x (Z.of_nat (length k))).
Proof.
  intros Hx Hk. set (L := Z.of_nat (length k)) in *.
  rewrite !Z.rem_mod_nonneg by lia.
  pose proof (Z.mod_pos_bound x (2 * L) ltac:(lia)) as Hb.
  pose proof (Z.div_mod x (2 * L) ltac:(lia)) as Hd.
  unfold at_.
  destruct (Z.lt_ge_cases (x mod (2 * L)) L) as [Hlt|Hge].
  - rewrite lookup_total_app_l by lia. f_equal. f_equal.
    apply (Zmod_unique x L (2 * (x / (2 * L)))); lia.
  - rewrite lookup_total_app_r by lia. f_equal.
    assert (Hm : x mod L = x mod (2 * L) - L).
    { symmetry. apply (Zmod_unique x L (2 * (x / (2 * L)) + 1)); lia. }
    rewrite Hm. lia.
Qed.

(** * Key expansion *)

Section ExpansionRun.

Variable cfg : build.

Lemma encrypt_under_value this acc :
  encrypt_under cfg this acc = encrypt_value cfg this acc.
Proof. unfold encrypt_under. rewrite EncryptBlock_run. reflexivity. Qed.

Lemma SetKey_expansion_passes this :
  SetKey_expansion cfg this =
  (Returns tt,
   snd (iter_loop 512 0 (table_pass cfg)
          (iter_loop 9 0 (subkey_pass cfg) ((0, 0), this)))).
Proof.
  unfold SetKey_expansion, for_.
  change (Z.to_nat (Z.quot 18 2)) with 9%nat.
  change (Z.to_nat (Z.quot 1024 2)) with 512%nat.
  erewrite bind_returns; cycle 1.
  { apply (for_loop_run _ (subkey_pass cfg)). intros i acc st.
    unfold subkey_pass, bind. rewrite EncryptBlock_run. cbn [fst snd].
    destruct (encrypt_value cfg st acc) as [L R]. reflexivity. }
  destruct (iter_loop 9 0 (subkey_pass cfg) ((0, 0), this)) as [acc st].
  cbn [fst snd].
  erewrite bind_returns; cycle 1.
  { apply (for_loop_run _ (table_pass cfg)). intros i acc' st'.
    unfold table_pass, bind. rewrite EncryptBlock_run. cbn [fst snd].
    destruct (encrypt_value cfg st' acc') as [L R]. reflexivity. }
  reflexivity.
Qed.

Lemma subkey_pass_step (k : nat) s :
  (k < 9)%nat ->
  subkey_pass cfg (0 + Z.of_nat k) s = expansion_step cfg (0 + k) s.
Proof.
  intros Hk. destruct s as [acc st].
  unfold subkey_pass, expansion_step, overwrite. cbn [fst snd].
  rewrite encrypt_under_value.
  destruct (encrypt_value cfg st acc) as [L R]. cbn [fst snd].
  rewrite (proj2 (Nat.ltb_lt (0 + k) 9)) by lia.
  unfold set_subkey. cbn [pary_ sbox_].
  rewrite Nat.add_0_l, Z.add_0_l, (Z.mul_comm 2). reflexivity.
Qed.

Lemma table_pass_step (k : nat) s :
  (k < 512)%nat ->
  table_pass cfg (0 + Z.of_nat k) s = expansion_step cfg (9 + k) s.
Proof.
  intros Hk. destruct s as [acc st].
  unfold table_pass, expansion_step, overwrite. cbn [fst snd].
  rewrite encrypt_under_value.
  destruct (encrypt_value cfg st acc) as [L R]. cbn [fst snd].
  rewrite (proj2 (Nat.ltb_ge (9 + k) 9)) by lia.
  unfold set_table_word. cbn [pary_ sbox_ Z.add].
  replace (2 * (Z.of_nat (9 + k) - 9)) with (Z.of_nat k * 2) by lia.
  rewrite !(Z.mul_comm _ 256), <- !Z.div_mod by lia. rewrite Z.add_0_l. reflexivity.
Qed.

Lemma SetKey_expansion_run this :
  SetKey_expansion cfg this = (Returns tt, expansion cfg this).
Proof.
  rewrite SetKey_expansion_passes. unfold expansion.
  rewrite seq_app, fold_left_app.
  rewrite (iter_loop_fold (subkey_pass cfg) (expansion_step cfg) 9 0 0%nat)
    by (intros k s' Hk; apply subkey_pass_step; exact Hk).
  rewrite (iter_loop_fold (table_pass cfg) (expansion_step cfg) 512 0 9%nat)
    by (intros k s' Hk; apply table_pass_step; exact Hk).
  reflexivity.
Qed.

End ExpansionRun.

(** C6.  The key schedule is the keying of lines 83-115 followed, when
    that returns, by the expansion in the order the specification gives:
    from the accumulator [(0, 0)], 9 block encryptions whose outputs
    overwrite the subkey pairs [(subkeys[2i], subkeys[2i+1])], then 512
    whose outputs overwrite the tables two words at a time in flattened
    order; each encryption runs under the state all earlier iterations
    left and on the block the previous one returned. *)
Theorem SetKey_expansion_order (cfg : build) (initial_pary initial_sbox : list Z)
    (key : list byte) (byte_length : Z) (this : Blowfish) :
  SetKey cfg initial_pary initial_sbox key byte_length this =
  match SetKey_keying cfg initial_pary initial_sbox key byte_length this with
  | (Returns _, keyed) => (Returns tt, expansion cfg keyed)
  | (Faults f, this') => (Faults f, this')
  end.
Proof.
  unfold SetKey, bind.
  destruct (SetKey_keying cfg initial_pary initial_sbox key byte_length this)
    as [[[]|f] st]; [apply SetKey_expansion_run | reflexivity].
Qed.

(** * Key lengths that are not positive *)

Section NonPositive.

Variable cfg : build.
Variables initial_pary initial_sbox : list Z.




Lemma SetKey_returns_of_keying key L this keyed :
  SetKey_keying cfg initial_pary initial_sbox key L this = (Returns tt, keyed) ->
  SetKey cfg initial_pary initial_sbox key L this = (Returns tt, expansion cfg keyed).
Proof.
  intros H. unfold SetKey. rewrite (bind_returns _ _ _ _ _ H).
  apply SetKey_expansion_run.
Qed.


End NonPositive.

(** C10.  For every key [k] of length [L >= 1] with [2L < 2^29], so that
    both lengths are values of [int] the packing loop can index, the key
    schedule run on [k] and the key schedule run on [k ++ k] with length
    [2L] both return, and they leave the same object: equal subkeys and
    equal tables. *)
Theorem SetKey_key_twice (cfg : build) (initial_pary initial_sbox : list Z)
    (k : list byte) (L : Z) (this : Blowfish) :
  1 <= L -> 2 * L < 2 ^ 29 -> L = Z.of_nat (length k) ->
  exists st,
    SetKey cfg initial_pary initial_sbox k L this = (Returns tt, st)
    /\ SetKey cfg initial_pary initial_sbox (k ++ k) (2 * L) this = (Returns tt, st).
Proof.
  intros HL _ Hk.
  exists (expansion cfg (mkBlowfish (xor_subkeys (key_word cfg k L) initial_pary)
                                    initial_sbox)).
  split.
  - apply SetKey_returns_of_keying, SetKey_keying_positive. lia.
  - rewrite (SetKey_returns_of_keying cfg _ _ _ _ _ _
               (SetKey_keying_positive cfg _ _ (k ++ k) (2 * L) this ltac:(lia))).
    rewrite (xor_subkeys_ext (key_word cfg (k ++ k) (2 * L)) (key_word cfg k L));
      [reflexivity|].
    intros i Hi. unfold key_word. subst L.
    rewrite !at_app_twice by lia. reflexivity.
Qed.



(** * Buffers *)

Section Buffers.

Variable cfg : build.

Lemma length_set_bit_32 v : length (set_bit_32 cfg v) = 4%nat.
Proof.
  unfold set_bit_32. destruct (host cfg); [|rewrite length_rev];
    apply length_le_split.
Qed.

Lemma get_set_bit_32 v : get_bit_32 cfg (set_bit_32 cfg v) = v mod 2 ^ 32.
Proof.
  unfold get_bit_32, set_bit_32. destruct (host cfg).
  - apply (le_combine_split 4).
  - rewrite rev_involutive. apply (le_combine_split 4).
Qed.

Lemma set_get_bit_32 bs : length bs = 4%nat -> set_bit_32 cfg (get_bit_32 cfg bs) = bs.
Proof.
  intros Hl. unfold get_bit_32, set_bit_32. destruct (host cfg).
  - rewrite <- Hl. apply split_le_combine.
  - rewrite <- (length_rev bs) in Hl. rewrite <- Hl, split_le_combine.
    apply rev_involutive.
Qed.

Lemma length_crypt_bytes f blk : length (crypt_bytes cfg f blk) = 8%nat.
Proof.
  unfold crypt_bytes. destruct (f _) as [L R].
  rewrite length_app, !length_set_bit_32. reflexivity.
Qed.

Lemma load32_0_app (pre buf : list byte) i :
  Z.of_nat (length pre) = 8 * i ->
  load32 cfg (pre ++ buf) (i * 2) = load32 cfg (take 8 buf) 0.
Proof.
  intros Hp. unfold load32.
  rewrite (drop_app_length' pre buf) by lia.
  change (Z.to_nat (4 * 0)) with 0%nat. rewrite drop_0, take_take. reflexivity.
Qed.

Lemma load32_1_app (pre buf : list byte) i :
  Z.of_nat (length pre) = 8 * i ->
  load32 cfg (pre ++ buf) (i * 2 + 1) = load32 cfg (take 8 buf) 1.
Proof.
  intros Hp. unfold load32.
  replace (Z.to_nat (4 * (i * 2 + 1))) with (length pre + 4)%nat by lia.
  rewrite drop_app_add. change (Z.to_nat (4 * 1)) with 4%nat.
  rewrite <- (take_drop_commute buf 4 4 : take 4 (drop 4 buf) = drop 4 (take 8 buf)).
  rewrite take_take. reflexivity.
Qed.

Lemma store32_pair_app (pre buf : list byte) i L R :
  Z.of_nat (length pre) = 8 * i ->
  store32 cfg (store32 cfg (pre ++ buf) (i * 2) L) (i * 2 + 1) R
  = (pre ++ set_bit_32 cfg L ++ set_bit_32 cfg R) ++ drop 8 buf.
Proof.
  intros Hp. unfold store32.
  replace (Z.to_nat (4 * (i * 2))) with (length pre) by lia.
  replace (Z.to_nat (4 * (i * 2 + 1))) with (length pre + 4)%nat by lia.
  rewrite take_app_length, drop_app_add.
  rewrite (app_assoc pre (set_bit_32 cfg L)).
  replace (length pre + 4)%nat with (length (pre ++ set_bit_32 cfg L))
    by (rewrite length_app, length_set_bit_32; reflexivity).
  rewrite take_app_length.
  replace (length (pre ++ set_bit_32 cfg L) + 4)%nat
    with (length (pre ++ set_bit_32 cfg L) + 0 + 4)%nat by lia.
  rewrite <- drop_drop, drop_app_add, drop_0, drop_drop.
  rewrite <- !app_assoc. reflexivity.
Qed.

(** The loop of [Encrypt] and [Decrypt] over a block function that only
    reads the object. *)
Lemma crypt_loop_run (blockfn : Z * Z -> M (Z * Z)) (f : Z * Z -> Z * Z) this :
  (forall b, blockfn b this = (Returns (f b), this)) ->
  forall n i pre buf,
    Z.of_nat (length pre) = 8 * i ->
    for_loop n i (fun i dst =>
        block <- blockfn (load32 cfg dst (i * 2), load32 cfg dst (i * 2 + 1)) ;;
        let '(L, R) := block in
        ret (store32 cfg (store32 cfg dst (i * 2) L) (i * 2 + 1) R))
      (pre ++ buf) this
    = (Returns (pre ++ ecb cfg f n buf), this).
Proof.
  intros Hf n. induction n as [|n IH]; intros i pre buf Hp.
  - reflexivity.
  - cbn [for_loop ecb]. unfold bind at 1. unfold bind at 1. rewrite Hf.
    rewrite (load32_0_app pre buf i Hp), (load32_1_app pre buf i Hp).
    unfold crypt_bytes.
    destruct (f (load32 cfg (take 8 buf) 0, load32 cfg (take 8 buf) 1)) as [L R].
    unfold ret at 1. rewrite (store32_pair_app pre buf i L R Hp).
    rewrite IH.
    + rewrite <- !app_assoc. reflexivity.
    + rewrite !length_app, !length_set_bit_32. lia.
Qed.

End Buffers.

Section BufferRun.

Variable cfg : build.

Lemma Encrypt_run dst src n this :
  Encrypt cfg dst src n this =
  (Returns (ecb cfg (encrypt_value cfg this) (Z.to_nat (Z.quot n 8)) (copied dst src n)),
   this).
Proof.
  unfold Encrypt, for_.
  apply (crypt_loop_run cfg (EncryptBlock cfg) (encrypt_value cfg this) this
           (fun b => EncryptBlock_run cfg b this) _ 0 []).
  reflexivity.
Qed.

Lemma Decrypt_run dst src n this :
  Decrypt cfg dst src n this =
  (Returns (ecb cfg (decrypt_value cfg this) (Z.to_nat (Z.quot n 8)) (copied dst src n)),
   this).
Proof.
  unfold Decrypt, for_.
  apply (crypt_loop_run cfg (DecryptBlock cfg) (decrypt_value cfg this) this
           (fun b => DecryptBlock_run cfg b this) _ 0 []).
  reflexivity.
Qed.

Lemma EncryptBlock_bytes_run blk this :
  EncryptBlock_bytes cfg blk this =
  (Returns (crypt_bytes cfg (encrypt_value cfg this) blk), this).
Proof.
  unfold EncryptBlock_bytes, crypt_bytes, bind. rewrite EncryptBlock_run.
  destruct (encrypt_value cfg this _) as [L R]. reflexivity.
Qed.

Lemma DecryptBlock_bytes_run blk this :
  DecryptBlock_bytes cfg blk this =
  (Returns (crypt_bytes cfg (decrypt_value cfg this) blk), this).
Proof.
  unfold DecryptBlock_bytes, crypt_bytes, bind. rewrite DecryptBlock_run.
  destruct (decrypt_value cfg this _) as [L R]. reflexivity.
Qed.

Lemma length_ecb f n : forall buf, (8 * n <= length buf)%nat ->
  length (ecb cfg f n buf) = length buf.
Proof.
  induction n as [|n IH]; intros buf Hl; [reflexivity|].
  cbn [ecb]. rewrite length_app, length_crypt_bytes, IH, length_drop;
    rewrite ?length_drop; lia.
Qed.

Lemma drop_ecb f n : forall buf, drop (8 * n) (ecb cfg f n buf) = drop (8 * n) buf.
Proof.
  induction n as [|n IH]; intros buf; [reflexivity|].
  cbn [ecb]. replace (8 * S n)%nat with (8 + 8 * n)%nat by lia.
  rewrite drop_app_add' by (rewrite length_crypt_bytes; reflexivity).
  rewrite IH, drop_drop. reflexivity.
Qed.

Lemma block_ecb f n : forall i buf, (i < n)%nat ->
  take 8 (drop (8 * i) (ecb cfg f n buf)) = crypt_bytes cfg f (take 8 (drop (8 * i) buf)).
Proof.
  induction n as [|n IH]; intros i buf Hi; [lia|].
  cbn [ecb]. destruct i as [|i].
  - rewrite Nat.mul_0_r, !drop_0.
    rewrite take_app_length' by (rewrite length_crypt_bytes; reflexivity).
    reflexivity.
  - replace (8 * S i)%nat with (8 + 8 * i)%nat by lia.
    rewrite drop_app_add' by (rewrite length_crypt_bytes; reflexivity).
    rewrite IH by lia. rewrite drop_drop. reflexivity.
Qed.

End BufferRun.

(** * 32-bit words *)

Lemma uint32_mod x : uint32 (x mod 2 ^ 32).
Proof. apply Z.mod_pos_bound. reflexivity. Qed.

Lemma uint32_lxor a b : uint32 a -> uint32 b -> uint32 (Z.lxor a b).
Proof.
  intros Ha Hb.
  assert (H : Z.lxor a b = Z.lxor a b mod 2 ^ 32).
  { apply Z.bits_inj'. intros n Hn.
    destruct (Z.lt_ge_cases n 32) as [Hlt|Hge].
    - rewrite Z.mod_pow2_bits_low by lia. reflexivity.
    - rewrite Z.mod_pow2_bits_high, Z.lxor_spec by lia.
      rewrite <- (Z.mod_small a (2 ^ 32)), <- (Z.mod_small b (2 ^ 32)) by assumption.
      rewrite !Z.mod_pow2_bits_high by lia. reflexivity. }
  rewrite H. apply uint32_mod.
Qed.

Lemma uint32_at (l : list Z) i : Forall uint32 l -> uint32 (at_ l i).
Proof.
  intros Hl. unfold at_. destruct (l !! Z.to_nat i) as [x|] eqn:E.
  - rewrite (list_lookup_total_correct _ _ _ E).
    exact (proj1 (Forall_lookup _ l) Hl _ _ E).
  - rewrite list_lookup_total_alt, E. cbn. unfold uint32. lia.
Qed.

Section WordBounds.

Variable cfg : build.

Lemma uint32_Feistel_value this x : uint32 (Feistel_value cfg this x).
Proof. unfold Feistel_value, add32. apply uint32_mod. Qed.

Lemma uint32_rounds (F : Z -> Z) ks :
  (forall x, uint32 (F x)) -> Forall uint32 ks ->
  forall b, uint32_block b -> uint32_block (rounds F ks b).
Proof.
  intros HF Hks. unfold rounds.
  induction Hks as [|k ks Hk Hks IH]; intros b Hb; [exact Hb|].
  cbn [fold_left]. apply IH. destruct b as [L R], Hb as [HL HR].
  split; cbn [round fst snd]; auto using uint32_lxor.
Qed.

Lemma uint32_finish ka kb b :
  uint32 ka -> uint32 kb -> uint32_block b -> uint32_block (finish ka kb b).
Proof.
  intros Ha Hb. destruct b as [L R]. intros [HL HR].
  split; cbn [finish fst snd]; auto using uint32_lxor.
Qed.

Lemma uint32_encrypt_value this b :
  Forall uint32 (pary_ this) -> uint32_block b ->
  uint32_block (encrypt_value cfg this b).
Proof.
  intros Hp Hb. unfold encrypt_value.
  apply uint32_finish; try (apply uint32_at; exact Hp).
  apply uint32_rounds; [apply uint32_Feistel_value | | exact Hb].
  apply Forall_map, Forall_forall. intros i _. apply uint32_at. exact Hp.
Qed.

Lemma uint32_decrypt_value this b :
  Forall uint32 (pary_ this) -> uint32_block b ->
  uint32_block (decrypt_value cfg this b).
Proof.
  intros Hp Hb. unfold decrypt_value.
  apply uint32_finish; try (apply uint32_at; exact Hp).
  apply uint32_rounds; [apply uint32_Feistel_value | | exact Hb].
  apply Forall_map, Forall_forall. intros i _. apply uint32_at. exact Hp.
Qed.

Lemma uint32_get_bit_32 bs : (length bs <= 4)%nat -> uint32 (get_bit_32 cfg bs).
Proof.
  intros Hl. unfold get_bit_32.
  assert (Hb : forall t : list byte, (length t <= 4)%nat -> uint32 (le_combine t)).
  { intros t Ht. pose proof (le_combine_bound t) as Hc. unfold uint32.
    assert (2 ^ (8 * Z.of_nat (length t)) <= 2 ^ 32)
      by (apply Z.pow_le_mono_r; lia).
    lia. }
  destruct (host cfg); apply Hb; rewrite ?length_rev; exact Hl.
Qed.

Lemma uint32_load32 buf j : uint32 (load32 cfg buf j).
Proof. apply uint32_get_bit_32. rewrite length_take. lia. Qed.

(** Decrypting the bytes of an encrypted block gives the block back. *)
Lemma crypt_bytes_inverse this blk :
  Forall uint32 (pary_ this) -> length blk = 8%nat ->
  crypt_bytes cfg (decrypt_value cfg this) (crypt_bytes cfg (encrypt_value cfg this) blk)
  = blk.
Proof.
  intros Hp Hl. unfold crypt_bytes at 2.
  pose proof (uint32_encrypt_value this (load32 cfg blk 0, load32 cfg blk 1) Hp
                (conj (uint32_load32 blk 0) (uint32_load32 blk 1))) as He.
  pose proof (decrypt_encrypt_value cfg this (load32 cfg blk 0, load32 cfg blk 1)) as Hd.
  destruct (encrypt_value cfg this (load32 cfg blk 0, load32 cfg blk 1)) as [L R].
  destruct He as [HL HR]. cbn [fst snd] in HL, HR.
  unfold crypt_bytes.
  assert (H0 : load32 cfg (set_bit_32 cfg L ++ set_bit_32 cfg R) 0 = L).
  { unfold load32. change (Z.to_nat (4 * 0)) with 0%nat. rewrite drop_0.
    rewrite take_app_length' by (rewrite length_set_bit_32; reflexivity).
    rewrite get_set_bit_32. apply Z.mod_small. exact HL. }
  assert (H1 : load32 cfg (set_bit_32 cfg L ++ set_bit_32 cfg R) 1 = R).
  { unfold load32. change (Z.to_nat (4 * 1)) with 4%nat.
    rewrite drop_app_length' by (rewrite length_set_bit_32; reflexivity).
    rewrite take_ge by (rewrite length_set_bit_32; lia).
    rewrite get_set_bit_32. apply Z.mod_small. exact HR. }
  rewrite H0, H1, Hd. unfold load32.
  change (Z.to_nat (4 * 0)) with 0%nat. change (Z.to_nat (4 * 1)) with 4%nat.
  rewrite drop_0, !set_get_bit_32
    by (rewrite length_take, ?length_drop; lia).
  rewrite take_take_drop. apply take_ge. lia.
Qed.

Lemma ecb_inverse this n :
  Forall uint32 (pary_ this) ->
  forall buf, (8 * n <= length buf)%nat ->
    ecb cfg (decrypt_value cfg this) n (ecb cfg (encrypt_value cfg this) n buf) = buf.
Proof.
  intros Hp. induction n as [|n IH]; intros buf Hl; [reflexivity|].
  cbn [ecb].
  rewrite take_app_length' by (rewrite length_crypt_bytes; reflexivity).
  rewrite drop_app_length' by (rewrite length_crypt_bytes; reflexivity).
  rewrite crypt_bytes_inverse by (rewrite ?length_take; auto; lia).
  rewrite IH by (rewrite length_drop; lia).
  apply take_drop.
Qed.

End WordBounds.

Section BufferFacts.

Variable cfg : build.

Lemma copied_same_length dst src n :
  Z.of_nat (length dst) = n -> Z.of_nat (length (source_bytes dst src)) = n ->
  copied dst src n = source_bytes dst src.
Proof.
  intros Hd Hs. destruct src as [s|]; [|reflexivity].
  cbn [copied source_bytes] in *. unfold memcpy.
  rewrite take_ge, drop_ge by lia. apply app_nil_r.
Qed.

Lemma blocks_within (len : nat) :
  (8 * Z.to_nat (Z.quot (Z.of_nat len) 8) <= len)%nat.
Proof.
  rewrite Z.quot_div_nonneg by lia.
  pose proof (Z.mul_div_le (Z.of_nat len) 8 ltac:(lia)). lia.
Qed.

Lemma copied_zero dst src : copied dst src 0 = dst.
Proof. destruct src; reflexivity. Qed.

End BufferFacts.

(** C7.  For every state of the object and any two 8-byte blocks [A] and
    [B], [Encrypt] on the 16 bytes [A ++ B] returns the block cipher's
    result on [A] followed by its result on [B], and leaves the object
    unchanged; it does so in place and from a separate source buffer
    alike.  In a buffer of any length, block [i] of the result is the block
    cipher's result on block [i] of the buffer, whatever the other blocks
    hold. *)
Theorem Encrypt_two_blocks (cfg : build) (this : Blowfish) (A B : list byte) :
  length A = 8%nat -> length B = 8%nat ->
  Encrypt cfg (A ++ B) None 16 this
  = (a <- EncryptBlock_bytes cfg A ;; b <- EncryptBlock_bytes cfg B ;; ret (a ++ b)) this
  /\ (forall dst, length dst = 16%nat ->
        Encrypt cfg dst (Some (A ++ B)) 16 this = Encrypt cfg (A ++ B) None 16 this)
  /\ (forall (buf : list byte) (i : nat),
        (8 * i + 8 <= length buf)%nat ->
        exists out,
          Encrypt cfg buf None (Z.of_nat (length buf)) this = (Returns out, this)
          /\ EncryptBlock_bytes cfg (take 8 (drop (8 * i) buf)) this
             = (Returns (take 8 (drop (8 * i) out)), this)).
Proof.
  intros HA HB. split; [|split].
  - rewrite Encrypt_run.
    rewrite (bind_returns _ _ _ _ _ (EncryptBlock_bytes_run cfg A this)).
    rewrite (bind_returns _ _ _ _ _ (EncryptBlock_bytes_run cfg B this)).
    unfold ret. f_equal. f_equal.
    change (Z.to_nat (Z.quot 16 8)) with 2%nat. cbn [ecb copied].
    rewrite take_app_length' by (symmetry; exact HA).
    rewrite drop_app_length' by (symmetry; exact HA).
    rewrite (take_ge B), (drop_ge B), app_nil_r by lia. reflexivity.
  - intros dst Hd. rewrite !Encrypt_run.
    rewrite (copied_same_length dst (Some (A ++ B)) 16)
      by (cbn [source_bytes]; rewrite ?length_app; lia).
    reflexivity.
  - intros buf i Hi. eexists. rewrite Encrypt_run. split; [reflexivity|].
    rewrite EncryptBlock_bytes_run. cbn [copied].
    rewrite block_ecb; [reflexivity|].
    rewrite Z.quot_div_nonneg by lia.
    assert (Z.of_nat i + 1 <= Z.of_nat (length buf) / 8)
      by (apply Z.div_le_lower_bound; lia).
    lia.
Qed.

Lemma Encrypt_two_blocks_witness :
  length sample_A = 8%nat /\ length sample_B = 8%nat /\
  Encrypt little_endian_build (sample_A ++ sample_B) None 16 zeroed
  = (a <- EncryptBlock_bytes little_endian_build sample_A ;;
     b <- EncryptBlock_bytes little_endian_build sample_B ;; ret (a ++ b)) zeroed.
Proof.
  split; [reflexivity|]. split; [reflexivity|].
  exact (proj1 (Encrypt_two_blocks little_endian_build zeroed sample_A sample_B
                  eq_refl eq_refl)).
Defined.

(** C8.  For every state of the object and every source of [8k + r]
    bytes with [0 < r < 8], [Encrypt] and [Decrypt] return a buffer of the
    same length in which each of the first [k] blocks is the block
    cipher's result on the corresponding source block and the bytes from
    [8k] on are those of the source; with [byte_length = 0] both return
    the destination as it was. *)
Theorem trailing_bytes_untouched (cfg : build) (this : Blowfish)
    (dst : list byte) (src : option (list byte)) (k r : Z) :
  0 <= k -> 0 < r < 8 ->
  Z.of_nat (length dst) = 8 * k + r ->
  Z.of_nat (length (source_bytes dst src)) = 8 * k + r ->
  (exists out,
     Encrypt cfg dst src (8 * k + r) this = (Returns out, this)
     /\ length out = length dst
     /\ (forall i, 0 <= i < k ->
           EncryptBlock_bytes cfg (take 8 (drop (Z.to_nat (8 * i)) (source_bytes dst src))) this
           = (Returns (take 8 (drop (Z.to_nat (8 * i)) out)), this))
     /\ drop (Z.to_nat (8 * k)) out = drop (Z.to_nat (8 * k)) (source_bytes dst src))
  /\ (exists out,
     Decrypt cfg dst src (8 * k + r) this = (Returns out, this)
     /\ length out = length dst
     /\ (forall i, 0 <= i < k ->
           DecryptBlock_bytes cfg (take 8 (drop (Z.to_nat (8 * i)) (source_bytes dst src))) this
           = (Returns (take 8 (drop (Z.to_nat (8 * i)) out)), this))
     /\ drop (Z.to_nat (8 * k)) out = drop (Z.to_nat (8 * k)) (source_bytes dst src))
  /\ (forall (dst' : list byte) (src' : option (list byte)),
        Encrypt cfg dst' src' 0 this = (Returns dst', this)
        /\ Decrypt cfg dst' src' 0 this = (Returns dst', this)).
Proof.
  intros Hk Hr Hd Hs.
  assert (Hq : Z.to_nat (Z.quot (8 * k + r) 8) = Z.to_nat k).
  { rewrite Z.quot_div_nonneg by lia. f_equal.
    symmetry. apply (Zdiv_unique (8 * k + r) 8 k r); lia. }
  assert (H8 : forall i, Z.to_nat (8 * i) = (8 * Z.to_nat i)%nat) by (intros; lia).
  split; [|split].
  - eexists. rewrite Encrypt_run, Hq, (copied_same_length dst src _ Hd Hs).
    split; [reflexivity|]. split; [|split].
    + rewrite length_ecb by lia. lia.
    + intros i Hi. rewrite EncryptBlock_bytes_run, !H8, block_ecb by lia.
      reflexivity.
    + rewrite H8. apply drop_ecb.
  - eexists. rewrite Decrypt_run, Hq, (copied_same_length dst src _ Hd Hs).
    split; [reflexivity|]. split; [|split].
    + rewrite length_ecb by lia. lia.
    + intros i Hi. rewrite DecryptBlock_bytes_run, !H8, block_ecb by lia.
      reflexivity.
    + rewrite H8. apply drop_ecb.
  - intros dst' src'. rewrite Encrypt_run, Decrypt_run, copied_zero. split; reflexivity.
Qed.

(** C9.  For every object whose subkeys are 32-bit words and every byte
    buffer of any length, [Decrypt] applied to the result of [Encrypt]
    over the whole length returns the original bytes, in place and
    through separate buffers alike, and leaves the object unchanged. *)
Theorem Decrypt_Encrypt (cfg : build) (this : Blowfish) (buf : list byte) :
  Forall uint32 (pary_ this) ->
  (out <- Encrypt cfg buf None (Z.of_nat (length buf)) ;;
   Decrypt cfg out None (Z.of_nat (length buf))) this = (Returns buf, this)
  /\ (forall dst dst' : list byte,
        length dst = length buf -> length dst' = length buf ->
        (out <- Encrypt cfg dst (Some buf) (Z.of_nat (length buf)) ;;
         Decrypt cfg dst' (Some out) (Z.of_nat (length buf))) this
        = (Returns buf, this)).
Proof.
  intros Hp. pose proof (blocks_within (length buf)) as Hb. split.
  - rewrite (bind_returns _ _ _ _ _ (Encrypt_run cfg buf None _ this)).
    rewrite Decrypt_run. cbn [copied].
    rewrite ecb_inverse by assumption. reflexivity.
  - intros dst dst' Hd Hd'.
    rewrite (bind_returns _ _ _ _ _ (Encrypt_run cfg dst (Some buf) _ this)).
    rewrite Decrypt_run.
    rewrite (copied_same_length dst (Some buf)) by (cbn [source_bytes]; lia).
    cbn [source_bytes].
    rewrite (copied_same_length dst' (Some _))
      by (cbn [source_bytes]; rewrite ?length_ecb by assumption; lia).
    cbn [source_bytes].
    rewrite ecb_inverse by assumption. reflexivity.
Qed.

(** * Builds that agree with their host compute the same cipher *)

Lemma rounds_ext (F F' : Z -> Z) :
  (forall x, F x = F' x) -> forall ks b, rounds F ks b = rounds F' ks b.
Proof.
  intros HF ks. unfold rounds. induction ks as [|k ks IH]; intros b; [reflexivity|].
  cbn [fold_left]. rewrite IH. f_equal. destruct b as [L R]. cbn [round].
  rewrite HF. reflexivity.
Qed.

Lemma fold_left_ext {A B : Type} (f g : A -> B -> A) :
  (forall a b, f a b = g a b) -> forall l a, fold_left f l a = fold_left g l a.
Proof.
  intros H l. induction l as [|b l IH]; intros a; [reflexivity|].
  cbn [fold_left]. rewrite H. apply IH.
Qed.

Section Configured.

Variables cfg cfg' : build.
Hypothesis Hcfg : configured cfg.
Hypothesis Hcfg' : configured cfg'.

Lemma encrypt_value_configured this b :
  encrypt_value cfg this b = encrypt_value cfg' this b.
Proof.
  unfold encrypt_value. f_equal. apply rounds_ext. intros x.
  rewrite !Feistel_value_configured by assumption. reflexivity.
Qed.

Lemma EncryptBlock_configured b this :
  EncryptBlock cfg b this = EncryptBlock cfg' b this.
Proof. rewrite !EncryptBlock_run, encrypt_value_configured. reflexivity. Qed.

Lemma expansion_configured this : expansion cfg this = expansion cfg' this.
Proof.
  unfold expansion.
  rewrite (fold_left_ext (fun s j => expansion_step cfg j s)
                         (fun s j => expansion_step cfg' j s)); [reflexivity|].
  intros [acc st] j. unfold expansion_step.
  rewrite !encrypt_under_value, encrypt_value_configured. reflexivity.
Qed.

Lemma SetKey_configured initial_pary initial_sbox key L this :
  0 < L ->
  SetKey cfg initial_pary initial_sbox key L this =
  SetKey cfg' initial_pary initial_sbox key L this.
Proof.
  intros HL.
  rewrite (SetKey_returns_of_keying cfg _ _ _ _ _ _
              (SetKey_keying_positive cfg _ _ key L this HL)).
  rewrite (SetKey_returns_of_keying cfg' _ _ _ _ _ _
              (SetKey_keying_positive cfg' _ _ key L this HL)).
  rewrite (xor_subkeys_ext (key_word cfg key L) (key_word cfg' key L))
    by (intros i Hi; rewrite !key_word_configured by assumption; reflexivity).
  apply (f_equal (fun st => (Returns tt, st))).
  apply expansion_configured.
Qed.

End Configured.

Lemma known_answer_little_endian (this : Blowfish) :
  exists st,
    SetKey little_endian_build Pi.initial_pary Pi.initial_sbox zero_key 8 this
    = (Returns tt, st)
    /\ EncryptBlock little_endian_build (0, 0) st
       = (Returns (0x4EF99745, 0x6198DD78), st).
Proof.
  eexists. split.
  - vm_compute. reflexivity.
  - vm_compute. reflexivity.
Qed.

(** * States the key schedule leaves *)


Lemma fold_left_invariant {A B : Type} (P : A -> Prop) (f : A -> B -> A) :
  (forall a b, P a -> P (f a b)) ->
  forall l a, P a -> P (fold_left f l a).
Proof.
  intros Hf l. induction l as [|b l IH]; intros a Ha; [exact Ha|].
  cbn [fold_left]. apply IH, Hf, Ha.
Qed.






(** A build whose macro disagrees with its host computes another cipher:
    with the round function and the packing the other way round, the zero
    key and the zero block give [(0xCFEA387A, 0x9A786D05)]. *)
Remark known_answer_lost_when_misconfigured (this : Blowfish) :
  exists st,
    SetKey unflagged_big_endian_build Pi.initial_pary Pi.initial_sbox zero_key 8 this
    = (Returns tt, st)
    /\ EncryptBlock unflagged_big_endian_build (0, 0) st
       = (Returns (0xCFEA387A, 0x9A786D05), st).
Proof.
  eexists. split.
  - vm_compute. reflexivity.
  - vm_compute. reflexivity.
Qed.

(** The buffer functions read and write each half in the host's byte
    order: the bytes of the known answer come out most significant first
    on a big-endian host and least significant first on a little-endian
    one. *)
Remark set_bit_32_known_answer :
  set_bit_32 big_endian_build 0x4EF99745 ++ set_bit_32 big_endian_build 0x6198DD78
  = [Byte.x4e; Byte.xf9; Byte.x97; Byte.x45; Byte.x61; Byte.x98; Byte.xdd; Byte.x78]
  /\ set_bit_32 little_endian_build 0x4EF99745 ++ set_bit_32 little_endian_build 0x6198DD78
  = [Byte.x45; Byte.x97; Byte.xf9; Byte.x4e; Byte.x78; Byte.xdd; Byte.x98; Byte.x61].
Proof. split; reflexivity. Qed.

(** * The known answer *)

(** The words of the all-zero block are zero on every host. *)
Lemma load32_zero_block cfg j : j = 0 \/ j = 1 -> load32 cfg zero_block j = 0.
Proof.
  intros [-> | ->]; unfold load32, get_bit_32; destruct (host cfg); reflexivity.
Qed.

(** [Encrypt] on the all-zero block stores the two words [EncryptBlock]
    returns for [(0, 0)], each in the byte order of the host. *)
Lemma Encrypt_zero_block cfg st L R :
  EncryptBlock cfg (0, 0) st = (Returns (L, R), st) ->
  Encrypt cfg zero_block None 8 st
  = (Returns (set_bit_32 cfg L ++ set_bit_32 cfg R), st).
Proof.
  intros H. rewrite EncryptBlock_run in H.
  assert (He : encrypt_value cfg st (0, 0) = (L, R)) by congruence.
  rewrite Encrypt_run. change (Z.to_nat (Z.quot 8 8)) with 1%nat.
  cbn [ecb copied].
  change (take 8 zero_block) with zero_block.
  change (drop 8 zero_block) with (@nil byte).
  unfold crypt_bytes.
  rewrite (load32_zero_block cfg 0), (load32_zero_block cfg 1), He by auto.
  rewrite app_nil_r. reflexivity.
Qed.

(** With the tables all zero, as the source file has them, the round
    function is zero, the zero block encrypts to itself and the key
    schedule of the zero key leaves every word zero. *)
Lemma at_replicate_0 (n : nat) (i : Z) :
  0 <= i < Z.of_nat n -> at_ (replicate n 0) i = 0.
Proof. intros Hi. unfold at_. apply lookup_total_replicate_2. lia. Qed.

Lemma upd_replicate_0 (n : nat) (i : Z) : upd (replicate n 0) i 0 = replicate n 0.
Proof. unfold upd. apply insert_replicate. Qed.

Lemma Feistel_value_zeroed cfg x : Feistel_value cfg zeroed x = 0.
Proof.
  unfold Feistel_value. cbv zeta.
  pose proof (byte.unsigned_range (get_byte cfg 0 (set_bit_32 cfg x))).
  pose proof (byte.unsigned_range (get_byte cfg 1 (set_bit_32 cfg x))).
  pose proof (byte.unsigned_range (get_byte cfg 2 (set_bit_32 cfg x))).
  pose proof (byte.unsigned_range (get_byte cfg 3 (set_bit_32 cfg x))).
  unfold zeroed. cbn [sbox_].
  rewrite !at_replicate_0 by lia. reflexivity.
Qed.

Lemma encrypt_value_zeroed cfg : encrypt_value cfg zeroed (0, 0) = (0, 0).
Proof.
  unfold encrypt_value.
  rewrite (rounds_ext (Feistel_value cfg zeroed) (fun _ => 0)
             (Feistel_value_zeroed cfg)).
  reflexivity.
Qed.

Lemma expansion_zeroed cfg : expansion cfg zeroed = zeroed.
Proof.
  unfold expansion.
  assert (H : fold_left (fun s j => expansion_step cfg j s) (seq 0 (9 + 512))
                ((0, 0), zeroed) = ((0, 0), zeroed)).
  { apply (fold_left_invariant (fun s => s = ((0, 0), zeroed))); [|reflexivity].
    intros s j ->. unfold expansion_step.
    rewrite encrypt_under_value, encrypt_value_zeroed.
    unfold overwrite. destruct (j <? 9)%nat.
    - unfold set_subkey, zeroed. cbn [pary_ sbox_].
      rewrite !upd_replicate_0. reflexivity.
    - unfold set_table_word, zeroed. cbn [pary_ sbox_].
      rewrite !upd_replicate_0. reflexivity. }
  rewrite H. reflexivity.
Qed.

Lemma key_word_zero_key cfg i : 0 <= i -> key_word cfg zero_key 8 i = 0.
Proof.
  intros Hi. unfold key_word. cbv zeta.
  assert (Hz : forall x, 0 <= x -> at_ zero_key (Z.rem x 8) = Byte.x00).
  { intros x Hx. unfold at_, zero_key.
    pose proof (Z.rem_bound_pos x 8 Hx ltac:(lia)).
    apply lookup_total_replicate_2. lia. }
  rewrite !Hz by lia.
  unfold get_bit_32, set_byte, offset_of_byte.
  destruct (host cfg), (LITTLE_ENDIAN_defined cfg); reflexivity.
Qed.

Lemma SetKey_shipped_zero_key cfg this :
  SetKey cfg Shipped.initial_pary Shipped.initial_sbox zero_key 8 this
  = (Returns tt, zeroed).
Proof.
  rewrite (SetKey_returns_of_keying cfg _ _ _ _ _ _
             (SetKey_keying_positive cfg _ _ zero_key 8 this ltac:(lia))).
  rewrite (xor_subkeys_ext (key_word cfg zero_key 8) (fun _ => 0))
    by (intros i Hi; apply key_word_zero_key; lia).
  change (mkBlowfish (xor_subkeys (fun _ => 0) Shipped.initial_pary)
            Shipped.initial_sbox) with zeroed.
  rewrite expansion_zeroed. reflexivity.
Qed.

Lemma known_answer_shipped cfg this :
  exists st,
    SetKey cfg Shipped.initial_pary Shipped.initial_sbox zero_key 8 this
    = (Returns tt, st)
    /\ EncryptBlock cfg (0, 0) st = (Returns (0, 0), st)
    /\ Encrypt cfg zero_block None 8 st = (Returns zero_block, st).
Proof.
  exists zeroed.
  assert (He : EncryptBlock cfg (0, 0) zeroed = (Returns (0, 0), zeroed))
    by (rewrite EncryptBlock_run, encrypt_value_zeroed; reflexivity).
  split; [apply SetKey_shipped_zero_key|]. split; [exact He|].
  rewrite (Encrypt_zero_block cfg zeroed 0 0 He).
  unfold set_bit_32. destruct (host cfg); reflexivity.
Qed.

Lemma known_answer_published cfg this :
  configured cfg ->
  exists st,
    SetKey cfg Pi.initial_pary Pi.initial_sbox zero_key 8 this = (Returns tt, st)
    /\ EncryptBlock cfg (0, 0) st = (Returns (0x4EF99745, 0x6198DD78), st)
    /\ Encrypt cfg zero_block None 8 st
       = (Returns match host cfg with
                  | BigEndian => claimed_known_answer
                  | LittleEndian =>
                      [Byte.x45; Byte.x97; Byte.xf9; Byte.x4e;
                       Byte.x78; Byte.xdd; Byte.x98; Byte.x61]
                  end, st).
Proof.
  intros Hc. destruct (known_answer_little_endian this) as [st [Hs He]].
  assert (He' : EncryptBlock cfg (0, 0) st = (Returns (0x4EF99745, 0x6198DD78), st)).
  { rewrite <- He. apply EncryptBlock_configured; [exact Hc | reflexivity]. }
  exists st. split; [|split].
  - rewrite <- Hs. apply SetKey_configured; [exact Hc | reflexivity | lia].
  - exact He'.
  - rewrite (Encrypt_zero_block cfg st _ _ He').
    unfold set_bit_32. destruct (host cfg); reflexivity.
Qed.

(** C2, as amended.  The source file declares both constant tables empty,
    so in the program as it stands every constant is zero: [SetKey] with
    the key of 8 zero bytes leaves an object under which [EncryptBlock]
    returns [(0, 0)] for the all-zero block and [Encrypt] returns 8 zero
    bytes.  With the constants of the published specification in the
    tables, on every build whose endianness macro agrees with the host,
    [EncryptBlock] returns the words [(0x4EF99745, 0x6198DD78)] and
    [Encrypt] stores each in the byte order of the host: the bytes are
    4E F9 97 45 61 98 DD 78 on a big-endian host and
    45 97 F9 4E 78 DD 98 61 on a little-endian host. *)
Theorem known_answer_zero_key (cfg : build) (this : Blowfish) :
  configured cfg ->
  (exists st,
     SetKey cfg Shipped.initial_pary Shipped.initial_sbox zero_key 8 this
     = (Returns tt, st)
     /\ EncryptBlock cfg (0, 0) st = (Returns (0, 0), st)
     /\ Encrypt cfg zero_block None 8 st = (Returns zero_block, st))
  /\ (exists st,
     SetKey cfg Pi.initial_pary Pi.initial_sbox zero_key 8 this = (Returns tt, st)
     /\ EncryptBlock cfg (0, 0) st = (Returns (0x4EF99745, 0x6198DD78), st)
     /\ Encrypt cfg zero_block None 8 st
        = (Returns match host cfg with
                   | BigEndian => claimed_known_answer
                   | LittleEndian =>
                       [Byte.x45; Byte.x97; Byte.xf9; Byte.x4e;
                        Byte.x78; Byte.xdd; Byte.x98; Byte.x61]
                   end, st)).
Proof.
  intros Hc. split.
  - apply known_answer_shipped.
  - apply known_answer_published, Hc.
Qed.

(** C2 as claimed fails on the default build, a little-endian host with
    neither macro predefined.  With the tables as the source file has them
    [Encrypt] returns 8 zero bytes; with the published constants it returns
    45 97 F9 4E 78 DD 98 61.  Neither is 4E F9 97 45 61 98 DD 78. *)
Lemma known_answer_bytes_not_as_claimed :
  (exists st,
     SetKey little_endian_build Shipped.initial_pary Shipped.initial_sbox zero_key 8
       zeroed = (Returns tt, st)
     /\ Encrypt little_endian_build zero_block None 8 st = (Returns zero_block, st)
     /\ zero_block <> claimed_known_answer)
  /\ (exists st,
     SetKey little_endian_build Pi.initial_pary Pi.initial_sbox zero_key 8 zeroed
     = (Returns tt, st)
     /\ Encrypt little_endian_build zero_block None 8 st
        = (Returns [Byte.x45; Byte.x97; Byte.xf9; Byte.x4e;
                    Byte.x78; Byte.xdd; Byte.x98; Byte.x61], st)
     /\ [Byte.x45; Byte.x97; Byte.xf9; Byte.x4e;
         Byte.x78; Byte.xdd; Byte.x98; Byte.x61] <> claimed_known_answer).
Proof.
  split.
  - destruct (known_answer_shipped little_endian_build zeroed) as [st [Hs [_ He]]].
    exists st. split; [exact Hs|]. split; [exact He|]. discriminate.
  - destruct (known_answer_published little_endian_build zeroed eq_refl)
      as [st [Hs [_ He]]].
    exists st. split; [exact Hs|]. split; [exact He|]. discriminate.
Qed.

(** C4 as claimed fails.  On a little-endian host, with the key
    [01 02 03 04], subkey 0 is XORed with [0x01020304], byte [b0] the most
    significant; the claim packs the word as [0x04030201]. *)
Lemma SetKey_keying_not_little_endian :
  at_ (pary_ (snd (SetKey_keying little_endian_build Pi.initial_pary Pi.initial_sbox
                     sample_key 4 zeroed))) 0
  = Z.lxor 0x243f6a88 0x01020304
  /\ at_ (keyed_subkeys (packed_word_little_endian sample_key 4) 4 Pi.initial_pary) 0
     = Z.lxor 0x243f6a88 0x04030201
  /\ SetKey_keying little_endian_build Pi.initial_pary Pi.initial_sbox sample_key 4 zeroed
     <> (Returns tt,
         mkBlowfish (keyed_subkeys (packed_word_little_endian sample_key 4) 4
                       Pi.initial_pary)
                    Pi.initial_sbox).
Proof.
  split; [vm_compute; reflexivity|]. split; [vm_compute; reflexivity|].
  intros H. apply (f_equal (fun r => at_ (pary_ (snd r)) 0)) in H.
  vm_compute in H. discriminate H.
Qed.

(** The claimed packing is what a build computes whose macro disagrees
    with its host. *)
Remark SetKey_keying_misconfigured (cfg : build) (initial_pary initial_sbox : list Z)
    (key : list byte) (L : Z) (this : Blowfish) :
  ~ configured cfg ->
  length initial_pary = 18%nat ->
  1 <= L ->
  SetKey_keying cfg initial_pary initial_sbox key L this =
  (Returns tt,
   mkBlowfish (keyed_subkeys (packed_word_little_endian key L) L initial_pary)
              initial_sbox).
Proof.
  intros Hc Hp HL. rewrite SetKey_keying_positive by lia.
  rewrite xor_subkeys_imap by exact Hp.
  unfold keyed_subkeys, packedWords.
  rewrite (imap_ext (fun i x => Z.lxor x (key_word cfg key L (Z.of_nat i)))
             (fun i p => Z.lxor p
                (at_ (map (packed_word_little_endian key L)
                          (Zseq 0 (Z.to_nat (wordCount L))))
                     (Z.of_nat i mod wordCount L)))); [reflexivity|].
  intros i x _. cbn beta.
  pose proof (wordCount_positive L ltac:(lia)) as Hw.
  pose proof (Z.mod_pos_bound (Z.of_nat i) (wordCount L) Hw) as Hb.
  rewrite at_map_Zseq by lia. rewrite Z.add_0_l.
  rewrite <- (key_word_period cfg key L (Z.of_nat i)) by lia.
  rewrite key_word_little_endian by (assumption || lia). reflexivity.
Qed.

(** * Instances *)

Lemma known_answer_zero_key_witness :
  configured big_endian_build /\
  exists st,
    SetKey big_endian_build Pi.initial_pary Pi.initial_sbox zero_key 8 zeroed
    = (Returns tt, st)
    /\ EncryptBlock big_endian_build (0, 0) st
       = (Returns (0x4EF99745, 0x6198DD78), st)
    /\ Encrypt big_endian_build zero_block None 8 st
       = (Returns match host big_endian_build with
                  | BigEndian => claimed_known_answer
                  | LittleEndian =>
                      [Byte.x45; Byte.x97; Byte.xf9; Byte.x4e;
                       Byte.x78; Byte.xdd; Byte.x98; Byte.x61]
                  end, st).
Proof.
  split; [reflexivity|].
  exact (proj2 (known_answer_zero_key big_endian_build zeroed eq_refl)).
Defined.


Lemma SetKey_keying_big_endian_witness :
  configured little_endian_build /\
  length Pi.initial_pary = 18%nat /\
  1 <= 4 <= Z.of_nat (length sample_key) /\
  4 < 2 ^ 29 /\
  SetKey_keying little_endian_build Pi.initial_pary Pi.initial_sbox sample_key 4 zeroed =
  (Returns tt,
   mkBlowfish (keyed_subkeys (packed_word_big_endian sample_key 4) 4 Pi.initial_pary)
              Pi.initial_sbox).
Proof.
  split; [reflexivity|]. split; [reflexivity|].
  assert (H : 1 <= 4 <= Z.of_nat (length sample_key)) by (cbn; lia).
  assert (Hb : 4 < 2 ^ 29) by reflexivity.
  split; [exact H|]. split; [exact Hb|].
  exact (SetKey_keying_big_endian little_endian_build Pi.initial_pary Pi.initial_sbox
           sample_key 4 zeroed eq_refl eq_refl H Hb).
Defined.

Lemma trailing_bytes_untouched_witness :
  0 <= 1 /\ 0 < 3 < 8 /\
  Z.of_nat (length sample_buffer) = 8 * 1 + 3 /\
  Z.of_nat (length (source_bytes sample_buffer None)) = 8 * 1 + 3 /\
  exists out,
    Encrypt little_endian_build sample_buffer None (8 * 1 + 3) zeroed = (Returns out, zeroed)
    /\ length out = length sample_buffer
    /\ (forall i, 0 <= i < 1 ->
          EncryptBlock_bytes little_endian_build
            (take 8 (drop (Z.to_nat (8 * i)) (source_bytes sample_buffer None))) zeroed
          = (Returns (take 8 (drop (Z.to_nat (8 * i)) out)), zeroed))
    /\ drop (Z.to_nat (8 * 1)) out
       = drop (Z.to_nat (8 * 1)) (source_bytes sample_buffer None).
Proof.
  assert (H1 : 0 <= 1) by lia.
  assert (H2 : 0 < 3 < 8) by lia.
  split; [exact H1|]. split; [exact H2|]. split; [reflexivity|]. split; [reflexivity|].
  exact (proj1 (trailing_bytes_untouched little_endian_build zeroed sample_buffer None
                  1 3 H1 H2 eq_refl eq_refl)).
Defined.

Lemma Decrypt_Encrypt_witness :
  Forall uint32 (pary_ zeroed) /\
  (out <- Encrypt little_endian_build sample_buffer None (Z.of_nat (length sample_buffer)) ;;
   Decrypt little_endian_build out None (Z.of_nat (length sample_buffer))) zeroed
  = (Returns sample_buffer, zeroed).
Proof.
  assert (H : Forall uint32 (pary_ zeroed)).
  { apply Forall_forall. intros x Hx. apply elem_of_replicate in Hx.
    destruct Hx as [-> _]. unfold uint32. lia. }
  split; [exact H|].
  exact (proj1 (Decrypt_Encrypt little_endian_build zeroed sample_buffer H)).
Defined.

Lemma SetKey_key_twice_witness :
  1 <= 3 /\ 2 * 3 < 2 ^ 29 /\
  3 = Z.of_nat (length [Byte.x01; Byte.x02; Byte.x03]) /\
  exists st,
    SetKey little_endian_build Pi.initial_pary Pi.initial_sbox
      [Byte.x01; Byte.x02; Byte.x03] 3 zeroed = (Returns tt, st)
    /\ SetKey little_endian_build Pi.initial_pary Pi.initial_sbox
         ([Byte.x01; Byte.x02; Byte.x03] ++ [Byte.x01; Byte.x02; Byte.x03]) (2 * 3)
         zeroed = (Returns tt, st).
Proof.
  assert (H1 : 1 <= 3) by lia.
  assert (H2 : 2 * 3 < 2 ^ 29) by reflexivity.
  split; [exact H1|]. split; [exact H2|]. split; [reflexivity|].
  exact (SetKey_key_twice little_endian_build Pi.initial_pary Pi.initial_sbox
           [Byte.x01; Byte.x02; Byte.x03] 3 zeroed H1 H2 eq_refl).
Defined.

(** * Further properties of the code *)

(** ** GCD *)

Lemma gcd_rem_step (a b : Z) : b <> 0 -> Z.gcd b (Z.rem a b) = Z.gcd a b.
Proof.
  intros Hb. pose proof (Z.quot_rem' a b) as Hq.
  assert (Hr : Z.rem a b = a + (- Z.quot a b) * b) by lia.
  rewrite Hr, Z.gcd_add_mult_diag_r. apply Z.gcd_comm.
Qed.

(** The bounds of [int] as numerals, for [lia]. *)
Lemma int_range_bounds (x : Z) : int_range x <-> -2147483648 <= x <= 2147483647.
Proof. reflexivity. Qed.

Lemma INT_MIN_value : INT_MIN = -2147483648.
Proof. reflexivity. Qed.

(** A remainder by [INT_MIN] that is [-1] comes from the dividend [-1]. *)
Lemma rem_INT_MIN_minus_1 (a : Z) :
  int_range a -> Z.rem a INT_MIN = -1 -> a = -1.
Proof.
  rewrite int_range_bounds, INT_MIN_value. intros Ha Hr.
  destruct (Z.lt_ge_cases a 0) as [Hneg|Hpos].
  - pose proof (Z.quot_rem' a (-2147483648)) as Hq. rewrite Hr in Hq.
    lia.
  - pose proof (Z.rem_nonneg a (-2147483648) ltac:(lia) Hpos). lia.
Qed.

(** From a pair of [int]s with a non-zero divisor that is neither
    [(INT_MIN, -1)] nor [(-1, INT_MIN)], no remainder of the loop
    overflows, every value it computes is an [int], and it returns. *)
Lemma GCD_loop_gcd (n : nat) : forall a b : Z,
  Z.abs_nat b = n ->
  int_range a -> int_range b -> b <> 0 ->
  ~ (a = INT_MIN /\ b = -1) -> ~ (a = -1 /\ b = INT_MIN) ->
  exists g, GCD_loop a b = Returns g
            /\ int_range g /\ g <> 0
            /\ Z.abs g = Z.gcd a b
            /\ (0 <= a -> 0 < b -> 0 < g).
Proof.
  induction n as [n IH] using lt_wf_ind. intros a b Hn Ha Hb Hb0 Ho1 Ho2.
  rewrite GCD_loop_eq. rewrite (proj2 (Z.eqb_neq b 0) Hb0).
  rewrite rem_overflows_false
    by (destruct (Z.eq_dec a INT_MIN); [right; intros ->; apply Ho1; split|left];
        auto).
  destruct (Z.eqb_spec (Z.rem a b) 0) as [Hr|Hr].
  - exists b. split; [reflexivity|]. split; [exact Hb|]. split; [exact Hb0|].
    split; [|intros _ H; exact H].
    rewrite <- (gcd_rem_step a b Hb0), Hr, Z.gcd_0_r. reflexivity.
  - pose proof (Z.rem_bound_abs a b Hb0) as Hlt.
    assert (Hrr : int_range (Z.rem a b))
      by (rewrite int_range_bounds in *; lia).
    assert (Hn1 : ~ (b = INT_MIN /\ Z.rem a b = -1)).
    { intros [-> Hm]. apply Ho2. split; [|reflexivity].
      apply rem_INT_MIN_minus_1; assumption. }
    assert (Hn2 : ~ (b = -1 /\ Z.rem a b = INT_MIN)).
    { intros [-> Hm]. rewrite Hm, INT_MIN_value in Hlt. lia. }
    destruct (IH (Z.abs_nat (Z.rem a b)) ltac:(lia) b (Z.rem a b) eq_refl
                Hb Hrr Hr Hn1 Hn2)
      as [g [Hg [Hgr [Hg0 [Habs Hpos]]]]].
    exists g. split; [exact Hg|]. split; [exact Hgr|]. split; [exact Hg0|]. split.
    + rewrite Habs. apply gcd_rem_step, Hb0.
    + intros Ha' Hb'. apply Hpos; [lia|].
      pose proof (Z.rem_nonneg a b Hb0 Ha'). lia.
Qed.

(** X1.  [GCD] is Euclid's algorithm on [int]s.  With [smaller] zero the
    first remainder divides by zero.  For the arguments [(INT_MIN, -1)] and
    [(-1, INT_MIN)] the loop reaches the remainder [INT_MIN % -1], which
    overflows.  For every other pair of [int]s the call returns a non-zero
    [int] whose absolute value is the greatest common divisor of the two
    arguments, and which is the greatest common divisor itself when
    [larger] is not negative and [smaller] is positive. *)
Theorem GCD_euclid (larger smaller : Z) :
  int_range larger -> int_range smaller ->
  (smaller = 0 -> GCD larger smaller = Faults DivisionByZero)
  /\ (larger = INT_MIN /\ smaller = -1 ->
      GCD larger smaller = Faults RemainderOverflow)
  /\ (larger = -1 /\ smaller = INT_MIN ->
      GCD larger smaller = Faults RemainderOverflow)
  /\ (smaller <> 0 ->
      ~ (larger = INT_MIN /\ smaller = -1) ->
      ~ (larger = -1 /\ smaller = INT_MIN) ->
      exists g, GCD larger smaller = Returns g
                /\ int_range g /\ g <> 0
                /\ Z.abs g = Z.gcd larger smaller
                /\ (0 <= larger -> 0 < smaller -> g = Z.gcd larger smaller)).
Proof.
  intros Hl Hs. split; [|split; [|split]].
  - intros ->. unfold GCD. rewrite GCD_loop_eq. reflexivity.
  - intros [-> ->]. unfold GCD. rewrite GCD_loop_eq. reflexivity.
  - intros [-> ->]. unfold GCD. rewrite GCD_loop_eq.
    change (Z.rem (-1) INT_MIN) with (-1).
    change (INT_MIN =? 0) with false. change (rem_overflows (-1) INT_MIN) with false.
    change (-1 =? 0) with false. cbv iota.
    rewrite GCD_loop_eq. reflexivity.
  - intros Hs0 Ho1 Ho2.
    destruct (GCD_loop_gcd _ larger smaller eq_refl Hl Hs Hs0 Ho1 Ho2)
      as [g [Hg [Hgr [Hg0 [Habs Hpos]]]]].
    exists g. split; [exact Hg|]. split; [exact Hgr|]. split; [exact Hg0|].
    split; [exact Habs|].
    intros Hl' Hs'. specialize (Hpos Hl' Hs'). lia.
Qed.

(** ** The block functions are inverse permutations *)

Lemma encrypt_decrypt_value cfg this block :
  encrypt_value cfg this (decrypt_value cfg this block) = block.
Proof.
  unfold decrypt_value, encrypt_value.
  rewrite !finish_whiten.
  cbn [map].
  rewrite !whiten_rounds.
  rewrite whiten_whiten.
  match goal with
  | |- context [keyed_rounds ?F ?ks (swap (keyed_rounds ?F ?ks' ?b))] =>
      change ks with (rev ks')
  end.
  rewrite keyed_rounds_swap, swap_swap. apply whiten_whiten.
Qed.

(** X2.  For every state of the object and every block [(l, r)]: running
    [DecryptBlock] and then [EncryptBlock] on its result returns [(l, r)]
    and leaves the object as it was; and two blocks that [EncryptBlock]
    maps to the same block are the same block, as are two that
    [DecryptBlock] maps to the same block. *)
Theorem EncryptBlock_DecryptBlock (cfg : build) (this : Blowfish) (l r : Z) :
  (block <- DecryptBlock cfg (l, r) ;; EncryptBlock cfg block) this
    = (Returns (l, r), this)
  /\ (forall b b' : Z * Z,
        EncryptBlock cfg b this = EncryptBlock cfg b' this -> b = b')
  /\ (forall b b' : Z * Z,
        DecryptBlock cfg b this = DecryptBlock cfg b' this -> b = b').
Proof.
  split; [|split].
  - rewrite (bind_returns _ _ _ _ _ (DecryptBlock_run cfg (l, r) this)).
    rewrite EncryptBlock_run, encrypt_decrypt_value. reflexivity.
  - intros b b'. rewrite !EncryptBlock_run. intros H.
    assert (He : encrypt_value cfg this b = encrypt_value cfg this b')
      by congruence.
    rewrite <- (decrypt_encrypt_value cfg this b), He.
    apply decrypt_encrypt_value.
  - intros b b'. rewrite !DecryptBlock_run. intros H.
    assert (He : decrypt_value cfg this b = decrypt_value cfg this b')
      by congruence.
    rewrite <- (encrypt_decrypt_value cfg this b), He.
    apply encrypt_decrypt_value.
Qed.

(** ** Buffers *)

Section BufferInverse.

Variable cfg : build.

(** Two functions on blocks of which the second undoes the first do so on
    the bytes of a block. *)
Lemma crypt_bytes_cancel (f g : Z * Z -> Z * Z) blk :
  (forall b, uint32_block b -> uint32_block (f b)) ->
  (forall b, g (f b) = b) ->
  length blk = 8%nat ->
  crypt_bytes cfg g (crypt_bytes cfg f blk) = blk.
Proof.
  intros Hf Hgf Hl. unfold crypt_bytes at 2.
  pose proof (Hf (load32 cfg blk 0, load32 cfg blk 1)
                (conj (uint32_load32 cfg blk 0) (uint32_load32 cfg blk 1))) as He.
  pose proof (Hgf (load32 cfg blk 0, load32 cfg blk 1)) as Hd.
  destruct (f (load32 cfg blk 0, load32 cfg blk 1)) as [L R].
  destruct He as [HL HR]. cbn [fst snd] in HL, HR.
  unfold crypt_bytes.
  assert (H0 : load32 cfg (set_bit_32 cfg L ++ set_bit_32 cfg R) 0 = L).
  { unfold load32. change (Z.to_nat (4 * 0)) with 0%nat. rewrite drop_0.
    rewrite take_app_length' by (rewrite length_set_bit_32; reflexivity).
    rewrite get_set_bit_32. apply Z.mod_small. exact HL. }
  assert (H1 : load32 cfg (set_bit_32 cfg L ++ set_bit_32 cfg R) 1 = R).
  { unfold load32. change (Z.to_nat (4 * 1)) with 4%nat.
    rewrite drop_app_length' by (rewrite length_set_bit_32; reflexivity).
    rewrite take_ge by (rewrite length_set_bit_32; lia).
    rewrite get_set_bit_32. apply Z.mod_small. exact HR. }
  rewrite H0, H1, Hd. unfold load32.
  change (Z.to_nat (4 * 0)) with 0%nat. change (Z.to_nat (4 * 1)) with 4%nat.
  rewrite drop_0, !set_get_bit_32
    by (rewrite length_take, ?length_drop; lia).
  rewrite take_take_drop. apply take_ge. lia.
Qed.

Lemma ecb_cancel (f g : Z * Z -> Z * Z) n :
  (forall b, uint32_block b -> uint32_block (f b)) ->
  (forall b, g (f b) = b) ->
  forall buf, (8 * n <= length buf)%nat ->
    ecb cfg g n (ecb cfg f n buf) = buf.
Proof.
  intros Hf Hgf. induction n as [|n IH]; intros buf Hl; [reflexivity|].
  cbn [ecb].
  rewrite take_app_length' by (rewrite length_crypt_bytes; reflexivity).
  rewrite drop_app_length' by (rewrite length_crypt_bytes; reflexivity).
  rewrite crypt_bytes_cancel by (rewrite ?length_take; auto; lia).
  rewrite IH by (rewrite length_drop; lia).
  apply take_drop.
Qed.

Lemma ecb_decrypt_inverse this n buf :
  Forall uint32 (pary_ this) -> (8 * n <= length buf)%nat ->
  ecb cfg (encrypt_value cfg this) n (ecb cfg (decrypt_value cfg this) n buf) = buf.
Proof.
  intros Hp Hl. apply ecb_cancel; [| |exact Hl].
  - intros b. apply uint32_decrypt_value, Hp.
  - apply encrypt_decrypt_value.
Qed.

(** The bytes copied in and the bytes left as they were. *)
Lemma length_copied dst src n :
  0 <= n <= Z.of_nat (length (source_bytes dst src)) ->
  n <= Z.of_nat (length dst) ->
  length (copied dst src n) = length dst.
Proof.
  intros Hs Hd. destruct src as [s|]; [|reflexivity].
  cbn [copied source_bytes] in *. unfold memcpy.
  rewrite length_app, length_take, length_drop. lia.
Qed.

Lemma take_copied dst src n :
  0 <= n <= Z.of_nat (length (source_bytes dst src)) ->
  take (Z.to_nat n) (copied dst src n) = take (Z.to_nat n) (source_bytes dst src).
Proof.
  intros Hs. destruct src as [s|]; [|reflexivity].
  cbn [copied source_bytes] in *. unfold memcpy.
  rewrite take_app_length'; [reflexivity|]. rewrite length_take. lia.
Qed.

Lemma drop_copied dst src n :
  0 <= n <= Z.of_nat (length (source_bytes dst src)) ->
  drop (Z.to_nat n) (copied dst src n) = drop (Z.to_nat n) dst.
Proof.
  intros Hs. destruct src as [s|]; [|reflexivity].
  cbn [copied source_bytes] in *. unfold memcpy.
  rewrite drop_app_length'; [reflexivity|]. rewrite length_take. lia.
Qed.

Lemma block_count_within n : 0 <= n -> (8 * block_count n <= Z.to_nat n)%nat.
Proof.
  intros Hn. unfold block_count. rewrite Z.quot_div_nonneg by lia.
  pose proof (Z.mul_div_le n 8 ltac:(lia)).
  pose proof (Z.div_pos n 8 Hn ltac:(lia)). lia.
Qed.

Lemma drop_ecb_from f n m buf :
  (8 * n <= m)%nat -> drop m (ecb cfg f n buf) = drop m buf.
Proof.
  intros Hm. replace m with (8 * n + (m - 8 * n))%nat by lia.
  rewrite <- !drop_drop, drop_ecb. reflexivity.
Qed.

(** The blocks of a buffer one after the other. *)
Lemma ecb_app f a : forall A B : list byte,
  length A = (8 * a)%nat -> forall b,
  ecb cfg f (a + b) (A ++ B) = ecb cfg f a A ++ ecb cfg f b B.
Proof.
  induction a as [|a IH]; intros A B HA b.
  - destruct A; [reflexivity|discriminate].
  - cbn [Nat.add ecb].
    rewrite take_app_le, drop_app_le by lia.
    rewrite IH by (rewrite length_drop; lia).
    rewrite <- app_assoc. reflexivity.
Qed.

(** Bytes after the blocks are carried along. *)
Lemma ecb_app_l f n : forall A B : list byte,
  (8 * n <= length A)%nat -> ecb cfg f n (A ++ B) = ecb cfg f n A ++ B.
Proof.
  induction n as [|n IH]; intros A B HA; [reflexivity|].
  cbn [ecb].
  rewrite take_app_le, drop_app_le by lia.
  rewrite IH by (rewrite length_drop; lia).
  rewrite <- app_assoc. reflexivity.
Qed.

Lemma take_ecb f n m buf :
  (8 * n <= m)%nat -> (m <= length buf)%nat ->
  take m (ecb cfg f n buf) = ecb cfg f n (take m buf).
Proof.
  intros Hn Hm. rewrite <- (take_drop m buf) at 1.
  rewrite ecb_app_l by (rewrite length_take; lia).
  rewrite take_app_length'; [reflexivity|].
  rewrite length_ecb by (rewrite length_take; lia).
  rewrite length_take. lia.
Qed.

(** What both buffer functions do beyond and within [byte_length]. *)
Lemma ecb_copied_frame f dst src n :
  0 <= n <= Z.of_nat (length (source_bytes dst src)) ->
  n <= Z.of_nat (length dst) ->
  let out := ecb cfg f (block_count n) (copied dst src n) in
  length out = length dst
  /\ drop (Z.to_nat n) out = drop (Z.to_nat n) dst
  /\ take (Z.to_nat n) out
     = ecb cfg f (block_count n) (take (Z.to_nat n) (source_bytes dst src)).
Proof.
  intros Hs Hd out. subst out.
  pose proof (block_count_within n ltac:(lia)) as Hk.
  pose proof (length_copied dst src n Hs Hd) as Hc.
  split; [|split].
  - rewrite length_ecb by lia. exact Hc.
  - rewrite drop_ecb_from by exact Hk. apply drop_copied, Hs.
  - rewrite take_ecb by lia. rewrite take_copied by exact Hs. reflexivity.
Qed.

Lemma block_count_add a n :
  0 <= n -> block_count (Z.of_nat (8 * a) + n) = (a + block_count n)%nat.
Proof.
  intros Hn. unfold block_count.
  rewrite !Z.quot_div_nonneg by lia.
  replace (Z.of_nat (8 * a) + n) with (n + Z.of_nat a * 8) by lia.
  rewrite Z.div_add by lia.
  pose proof (Z.div_pos n 8 Hn ltac:(lia)). lia.
Qed.

End BufferInverse.

(** X3.  For every object whose subkeys are 32-bit words, every buffer and
    every [byte_length] within it, [Encrypt] applied in place to the result
    of [Decrypt] returns the original bytes, and so does [Decrypt] applied
    to the result of [Encrypt]; the object is unchanged. *)
Theorem Encrypt_Decrypt (cfg : build) (this : Blowfish) (buf : list byte) (n : Z) :
  Forall uint32 (pary_ this) ->
  0 <= n <= Z.of_nat (length buf) ->
  (out <- Decrypt cfg buf None n ;; Encrypt cfg out None n) this = (Returns buf, this)
  /\ (out <- Encrypt cfg buf None n ;; Decrypt cfg out None n) this = (Returns buf, this).
Proof.
  intros Hp Hn. pose proof (block_count_within n ltac:(lia)) as Hk.
  unfold block_count in Hk. split.
  - rewrite (bind_returns _ _ _ _ _ (Decrypt_run cfg buf None n this)).
    rewrite Encrypt_run. cbn [copied].
    rewrite ecb_decrypt_inverse by (auto; lia). reflexivity.
  - rewrite (bind_returns _ _ _ _ _ (Encrypt_run cfg buf None n this)).
    rewrite Decrypt_run. cbn [copied].
    rewrite ecb_inverse by (auto; lia). reflexivity.
Qed.


(** X5.  With [byte_length] within both buffers, [Encrypt] and [Decrypt]
    return a buffer as long as the destination whose bytes from
    [byte_length] on are the destination's own, and whose first
    [byte_length] bytes are what the same call returns in place on the
    first [byte_length] bytes of the source: nothing past [byte_length] is
    written, and nothing past it is read. *)
Theorem nothing_past_byte_length (cfg : build) (this : Blowfish)
    (dst : list byte) (src : option (list byte)) (n : Z) :
  0 <= n <= Z.of_nat (length (source_bytes dst src)) ->
  n <= Z.of_nat (length dst) ->
  (exists out,
     Encrypt cfg dst src n this = (Returns out, this)
     /\ length out = length dst
     /\ drop (Z.to_nat n) out = drop (Z.to_nat n) dst
     /\ Encrypt cfg (take (Z.to_nat n) (source_bytes dst src)) None n this
        = (Returns (take (Z.to_nat n) out), this))
  /\ (exists out,
     Decrypt cfg dst src n this = (Returns out, this)
     /\ length out = length dst
     /\ drop (Z.to_nat n) out = drop (Z.to_nat n) dst
     /\ Decrypt cfg (take (Z.to_nat n) (source_bytes dst src)) None n this
        = (Returns (take (Z.to_nat n) out), this)).
Proof.
  intros Hs Hd. split.
  - destruct (ecb_copied_frame cfg (encrypt_value cfg this) dst src n Hs Hd)
      as [Hl [Hdrop Htake]].
    eexists. split; [apply Encrypt_run|].
    split; [exact Hl|]. split; [exact Hdrop|].
    rewrite Encrypt_run. cbn [copied]. unfold block_count in Htake.
    rewrite Htake. reflexivity.
  - destruct (ecb_copied_frame cfg (decrypt_value cfg this) dst src n Hs Hd)
      as [Hl [Hdrop Htake]].
    eexists. split; [apply Decrypt_run|].
    split; [exact Hl|]. split; [exact Hdrop|].
    rewrite Decrypt_run. cbn [copied]. unfold block_count in Htake.
    rewrite Htake. reflexivity.
Qed.

(** X6.  For a buffer [A] of whole blocks followed by any buffer [B],
    [Encrypt] over [A ++ B] returns what it returns on [A] followed by what
    it returns on [B], and so does [Decrypt]: the blocks are processed
    independently of each other and of their position. *)
Theorem Encrypt_app (cfg : build) (this : Blowfish) (A B : list byte) (a : nat) (n : Z) :
  length A = (8 * a)%nat -> 0 <= n <= Z.of_nat (length B) ->
  Encrypt cfg (A ++ B) None (Z.of_nat (length A) + n) this
  = (x <- Encrypt cfg A None (Z.of_nat (length A)) ;;
     y <- Encrypt cfg B None n ;;
     ret (x ++ y)) this
  /\ Decrypt cfg (A ++ B) None (Z.of_nat (length A) + n) this
  = (x <- Decrypt cfg A None (Z.of_nat (length A)) ;;
     y <- Decrypt cfg B None n ;;
     ret (x ++ y)) this.
Proof.
  intros HA Hn.
  pose proof (block_count_add a n (proj1 Hn)) as Hc.
  pose proof (block_count_add a 0 ltac:(lia)) as Hc0.
  rewrite Z.add_0_r in Hc0. change (block_count 0) with 0%nat in Hc0.
  rewrite Nat.add_0_r in Hc0. unfold block_count in Hc, Hc0.
  rewrite HA. split.
  - rewrite (bind_returns _ _ _ _ _ (Encrypt_run cfg A None _ this)).
    rewrite (bind_returns _ _ _ _ _ (Encrypt_run cfg B None _ this)).
    rewrite Encrypt_run. cbn [copied]. rewrite Hc, Hc0.
    rewrite (ecb_app cfg _ a A B HA). reflexivity.
  - rewrite (bind_returns _ _ _ _ _ (Decrypt_run cfg A None _ this)).
    rewrite (bind_returns _ _ _ _ _ (Decrypt_run cfg B None _ this)).
    rewrite Decrypt_run. cbn [copied]. rewrite Hc, Hc0.
    rewrite (ecb_app cfg _ a A B HA). reflexivity.
Qed.

(** X7.  For every object whose subkeys are 32-bit words: two blocks of the
    buffer [Encrypt] returns are equal exactly when the two blocks of the
    source at the same places are equal, so the result shows which source
    blocks repeat. *)
Theorem Encrypt_equal_blocks (cfg : build) (this : Blowfish) (buf : list byte)
    (n : Z) (i j : nat) :
  Forall uint32 (pary_ this) ->
  0 <= n <= Z.of_nat (length buf) ->
  (i < block_count n)%nat -> (j < block_count n)%nat ->
  exists out,
    Encrypt cfg buf None n this = (Returns out, this)
    /\ (block_at i out = block_at j out <-> block_at i buf = block_at j buf).
Proof.
  intros Hp Hn Hi Hj. pose proof (block_count_within n ltac:(lia)) as Hk.
  eexists. split; [apply Encrypt_run|]. cbn [copied].
  unfold block_at. fold (block_count n).
  rewrite !block_ecb by assumption.
  split; [|intros ->; reflexivity].
  intros H.
  assert (Hl : forall m, (m < block_count n)%nat ->
                 length (take 8 (drop (8 * m) buf)) = 8%nat).
  { intros m Hm. rewrite length_take, length_drop. lia. }
  rewrite <- (crypt_bytes_inverse cfg this (take 8 (drop (8 * i) buf)) Hp (Hl i Hi)).
  rewrite H. apply crypt_bytes_inverse; auto.
Qed.

(** ** The key schedule *)

Section KeySchedule.

Variable cfg : build.
Variables initial_pary initial_sbox : list Z.


Lemma SetKey_positive key L this :
  0 < L ->
  SetKey cfg initial_pary initial_sbox key L this
  = (Returns tt,
     expansion cfg (mkBlowfish (xor_subkeys (key_word cfg key L) initial_pary)
                               initial_sbox)).
Proof.
  intros HL. apply SetKey_returns_of_keying, SetKey_keying_positive, HL.
Qed.

(** Keys whose bytes agree at the 72 places the packing reads. *)
Lemma key_word_agree k1 L1 k2 L2 :
  0 < L1 -> 0 < L2 ->
  (forall j, 0 <= j < 72 -> at_ k1 (j mod L1) = at_ k2 (j mod L2)) ->
  forall i, 0 <= i < 18 -> key_word cfg k1 L1 i = key_word cfg k2 L2 i.
Proof.
  intros H1 H2 H i Hi. unfold key_word.
  rewrite !Z.rem_mod_nonneg by lia.
  rewrite !H by lia. reflexivity.
Qed.

End KeySchedule.


(** X9.  [SetKey] reads the key only through the bytes
    [key[j % byte_length]] for [j] from 0 to 71: two keys with positive
    lengths below [2^29], the lengths for which the indices of the packing
    loop are values of [int], that agree on these 72 bytes leave the same
    object. *)
Theorem SetKey_reads_72_bytes (cfg : build) (initial_pary initial_sbox : list Z)
    (key1 key2 : list byte) (L1 L2 : Z) (this : Blowfish) :
  0 < L1 < 2 ^ 29 -> 0 < L2 < 2 ^ 29 ->
  (forall j, 0 <= j < 72 -> at_ key1 (j mod L1) = at_ key2 (j mod L2)) ->
  SetKey cfg initial_pary initial_sbox key1 L1 this
  = SetKey cfg initial_pary initial_sbox key2 L2 this.
Proof.
  intros [H1 _] [H2 _] H. rewrite !SetKey_positive by assumption.
  rewrite (xor_subkeys_ext (key_word cfg key1 L1) (key_word cfg key2 L2) initial_pary
             (key_word_agree cfg key1 L1 key2 L2 H1 H2 H)).
  reflexivity.
Qed.

(** X10.  Key bytes from the 73rd on are never used: two keys whose
    lengths are at least 72 and below [2^29], and whose first 72 bytes are
    the same, leave the same object, whatever their lengths in that range
    and their remaining bytes. *)
Theorem SetKey_ignores_bytes_past_72 (cfg : build) (initial_pary initial_sbox : list Z)
    (key1 key2 : list byte) (L1 L2 : Z) (this : Blowfish) :
  72 <= L1 < 2 ^ 29 -> 72 <= L2 < 2 ^ 29 ->
  take 72 key1 = take 72 key2 ->
  SetKey cfg initial_pary initial_sbox key1 L1 this
  = SetKey cfg initial_pary initial_sbox key2 L2 this.
Proof.
  intros [H1 _] [H2 _] Ht. rewrite !SetKey_positive by lia.
  rewrite (xor_subkeys_ext (key_word cfg key1 L1) (key_word cfg key2 L2) initial_pary);
    [reflexivity|].
  apply key_word_agree; [lia|lia|].
  intros j Hj. rewrite !Z.mod_small by lia. unfold at_.
  rewrite <- (lookup_total_take_lt key1 72 (Z.to_nat j)) by lia.
  rewrite <- (lookup_total_take_lt key2 72 (Z.to_nat j)) by lia.
  rewrite Ht. reflexivity.
Qed.

(** ** Builds and hosts *)

Lemma decrypt_value_configured cfg cfg' this b :
  configured cfg -> configured cfg' ->
  decrypt_value cfg this b = decrypt_value cfg' this b.
Proof.
  intros Hc Hc'. unfold decrypt_value.
  rewrite (rounds_ext (Feistel_value cfg this) (Feistel_value cfg' this));
    [reflexivity|].
  intros x. rewrite !Feistel_value_configured by assumption. reflexivity.
Qed.

(** X11.  Two builds whose byte-order macro agrees with their hosts, of
    either byte order, compute the same cipher on words: [SetKey] with a
    positive length leaves the same subkeys and tables, and [EncryptBlock]
    and [DecryptBlock] return the same blocks. *)
Theorem configured_builds_agree (cfg cfg' : build)
    (initial_pary initial_sbox : list Z) (key : list byte) (L : Z)
    (block : Z * Z) (this : Blowfish) :
  configured cfg -> configured cfg' -> 0 < L ->
  SetKey cfg initial_pary initial_sbox key L this
  = SetKey cfg' initial_pary initial_sbox key L this
  /\ EncryptBlock cfg block this = EncryptBlock cfg' block this
  /\ DecryptBlock cfg block this = DecryptBlock cfg' block this.
Proof.
  intros Hc Hc' HL. split; [|split].
  - apply SetKey_configured; assumption.
  - apply EncryptBlock_configured; assumption.
  - rewrite !DecryptBlock_run, (decrypt_value_configured cfg cfg') by assumption.
    reflexivity.
Qed.

(** X12.  On every build, configured or not, the key packing and the round
    function name the bytes of a word alike: the byte [Feistel] takes as
    [byteK] of a packed key word is the key byte the packing loop stored as
    [byteK], that is [key[(4i + K) % byte_length]]. *)
Theorem packed_key_bytes_in_order (cfg : build) (key : list byte) (L i : Z) :
  get_byte cfg 0 (set_bit_32 cfg (key_word cfg key L i)) = at_ key (Z.rem (i * 4) L)
  /\ get_byte cfg 1 (set_bit_32 cfg (key_word cfg key L i)) = at_ key (Z.rem (i * 4 + 1) L)
  /\ get_byte cfg 2 (set_bit_32 cfg (key_word cfg key L i)) = at_ key (Z.rem (i * 4 + 2) L)
  /\ get_byte cfg 3 (set_bit_32 cfg (key_word cfg key L i)) = at_ key (Z.rem (i * 4 + 3) L).
Proof.
  unfold key_word. cbv zeta.
  rewrite set_get_bit_32
    by (unfold set_byte, Converter32; rewrite !length_insert; reflexivity).
  unfold get_byte, set_byte, offset_of_byte.
  destruct (LITTLE_ENDIAN_defined cfg); repeat split; reflexivity.
Qed.

(** ** Hosts of the two byte orders *)

Lemma length_byteswap_words n : forall buf,
  (4 * n <= length buf)%nat -> length (byteswap_words n buf) = length buf.
Proof.
  induction n as [|n IH]; intros buf Hl; [reflexivity|].
  cbn [byteswap_words].
  rewrite length_app, length_rev, length_take, IH by (rewrite length_drop; lia).
  rewrite length_drop. lia.
Qed.

Lemma byteswap_words_app a : forall (A B : list byte) b,
  length A = (4 * a)%nat ->
  byteswap_words (a + b) (A ++ B) = byteswap_words a A ++ byteswap_words b B.
Proof.
  induction a as [|a IH]; intros A B b HA.
  - destruct A; [reflexivity|discriminate].
  - cbn [Nat.add byteswap_words].
    rewrite take_app_le, drop_app_le by lia.
    rewrite IH by (rewrite length_drop; lia).
    rewrite <- app_assoc. reflexivity.
Qed.

Lemma byteswap_words_2 (blk : list byte) :
  length blk = 8%nat ->
  byteswap_words 2 blk = rev (take 4 blk) ++ rev (take 4 (drop 4 blk)).
Proof.
  intros Hl. cbn [byteswap_words].
  rewrite drop_drop, (drop_ge blk (4 + 4)) by lia.
  rewrite app_nil_r. reflexivity.
Qed.

Section OtherHost.

Variables cfg cfg' : build.
Hypothesis other : host cfg <> host cfg'.

Lemma get_bit_32_other c : get_bit_32 cfg c = get_bit_32 cfg' (rev c).
Proof.
  unfold get_bit_32. destruct (host cfg), (host cfg'); try congruence.
  rewrite rev_involutive. reflexivity.
Qed.

Lemma set_bit_32_other v : set_bit_32 cfg v = rev (set_bit_32 cfg' v).
Proof.
  unfold set_bit_32. destruct (host cfg), (host cfg'); try congruence.
  rewrite rev_involutive. reflexivity.
Qed.

Lemma crypt_bytes_other f blk :
  length blk = 8%nat ->
  crypt_bytes cfg f blk
  = byteswap_words 2 (crypt_bytes cfg' f (byteswap_words 2 blk)).
Proof.
  intros Hl. rewrite (byteswap_words_2 blk Hl).
  assert (H0 : load32 cfg' (rev (take 4 blk) ++ rev (take 4 (drop 4 blk))) 0
               = load32 cfg blk 0).
  { unfold load32. change (Z.to_nat (4 * 0)) with 0%nat. rewrite !drop_0.
    rewrite take_app_length' by (rewrite length_rev, length_take; lia).
    symmetry. apply get_bit_32_other. }
  assert (H1 : load32 cfg' (rev (take 4 blk) ++ rev (take 4 (drop 4 blk))) 1
               = load32 cfg blk 1).
  { unfold load32. change (Z.to_nat (4 * 1)) with 4%nat.
    rewrite drop_app_length' by (rewrite length_rev, length_take; lia).
    rewrite (take_ge (rev _))
      by (rewrite length_rev, length_take, length_drop; lia).
    symmetry. apply get_bit_32_other. }
  unfold crypt_bytes. rewrite H0, H1.
  destruct (f (load32 cfg blk 0, load32 cfg blk 1)) as [L R].
  rewrite byteswap_words_2
    by (rewrite length_app, !length_set_bit_32; reflexivity).
  rewrite take_app_length', drop_app_length'
    by (rewrite length_set_bit_32; reflexivity).
  rewrite (take_ge (set_bit_32 cfg' R)) by (rewrite length_set_bit_32; lia).
  rewrite !set_bit_32_other. reflexivity.
Qed.

Lemma ecb_other f n : forall buf,
  (8 * n <= length buf)%nat ->
  ecb cfg f n buf
  = byteswap_words (2 * n) (ecb cfg' f n (byteswap_words (2 * n) buf)).
Proof.
  induction n as [|n IH]; intros buf Hl; [reflexivity|].
  replace (2 * S n)%nat with (2 + 2 * n)%nat by lia.
  rewrite <- (take_drop 8 buf) at 2.
  rewrite (byteswap_words_app 2) by (rewrite length_take; lia).
  cbn [ecb].
  assert (H8 : length (byteswap_words 2 (take 8 buf)) = 8%nat)
    by (rewrite length_byteswap_words; rewrite length_take; lia).
  rewrite take_app_length', drop_app_length' by (symmetry; exact H8).
  rewrite (byteswap_words_app 2) by (rewrite length_crypt_bytes; reflexivity).
  rewrite <- crypt_bytes_other by (rewrite length_take; lia).
  rewrite <- IH by (rewrite length_drop; lia).
  reflexivity.
Qed.

End OtherHost.

(** X13.  The bytes [Encrypt] and [Decrypt] leave depend on the host's
    byte order: on two configured builds whose hosts differ in byte order,
    the result on one is the result on the other with the four bytes of
    every processed word reversed, for a source with the bytes of every
    processed word reversed.  Bytes past the last whole block are not
    reversed. *)
Theorem Encrypt_on_other_byte_order (cfg cfg' : build) (this : Blowfish)
    (buf : list byte) (n : Z) :
  configured cfg -> configured cfg' -> host cfg <> host cfg' ->
  0 <= n <= Z.of_nat (length buf) ->
  Encrypt cfg buf None n this
  = (out <- Encrypt cfg' (byteswap_words (2 * block_count n) buf) None n ;;
     ret (byteswap_words (2 * block_count n) out)) this
  /\ Decrypt cfg buf None n this
  = (out <- Decrypt cfg' (byteswap_words (2 * block_count n) buf) None n ;;
     ret (byteswap_words (2 * block_count n) out)) this.
Proof.
  intros Hc Hc' Hh Hn. pose proof (block_count_within n ltac:(lia)) as Hk.
  split.
  - rewrite (bind_returns _ _ _ _ _ (Encrypt_run cfg' _ None n this)).
    rewrite Encrypt_run. cbn [copied]. fold (block_count n).
    rewrite (ecb_other cfg cfg' Hh) by lia.
    assert (He : forall k b,
               ecb cfg' (encrypt_value cfg this) k b
               = ecb cfg' (encrypt_value cfg' this) k b).
    { intros k. induction k as [|k IH]; intros b; [reflexivity|].
      cbn [ecb]. rewrite IH. unfold crypt_bytes.
      rewrite (encrypt_value_configured cfg cfg') by assumption. reflexivity. }
    rewrite He. reflexivity.
  - rewrite (bind_returns _ _ _ _ _ (Decrypt_run cfg' _ None n this)).
    rewrite Decrypt_run. cbn [copied]. fold (block_count n).
    rewrite (ecb_other cfg cfg' Hh) by lia.
    assert (He : forall k b,
               ecb cfg' (decrypt_value cfg this) k b
               = ecb cfg' (decrypt_value cfg' this) k b).
    { intros k. induction k as [|k IH]; intros b; [reflexivity|].
      cbn [ecb]. rewrite IH. unfold crypt_bytes.
      rewrite (decrypt_value_configured cfg cfg') by assumption. reflexivity. }
    rewrite He. reflexivity.
Qed.

(** ** The block functions read inside the arrays *)

Lemma at_take (l : list Z) (n : nat) (i : Z) :
  0 <= i < Z.of_nat n -> at_ (take n l) i = at_ l i.
Proof. intros Hi. unfold at_. apply lookup_total_take_lt. lia. Qed.

Lemma at_agree (l l' : list Z) (n : nat) (i : Z) :
  take n l = take n l' -> 0 <= i < Z.of_nat n -> at_ l i = at_ l' i.
Proof.
  intros Ht Hi. rewrite <- (at_take l n i Hi), <- (at_take l' n i Hi), Ht.
  reflexivity.
Qed.

Section ReadsWithin.

Variable cfg : build.
Variables this this' : Blowfish.
Hypothesis same_subkeys : take 18 (pary_ this) = take 18 (pary_ this').
Hypothesis same_tables : take 1024 (sbox_ this) = take 1024 (sbox_ this').

Lemma Feistel_value_agree x :
  Feistel_value cfg this x = Feistel_value cfg this' x.
Proof.
  unfold Feistel_value. cbv zeta.
  pose proof (byte.unsigned_range (get_byte cfg 0 (set_bit_32 cfg x))).
  pose proof (byte.unsigned_range (get_byte cfg 1 (set_bit_32 cfg x))).
  pose proof (byte.unsigned_range (get_byte cfg 2 (set_bit_32 cfg x))).
  pose proof (byte.unsigned_range (get_byte cfg 3 (set_bit_32 cfg x))).
  rewrite !(at_agree (sbox_ this) (sbox_ this') 1024 _ same_tables) by lia.
  reflexivity.
Qed.

Lemma subkey_agree i : 0 <= i < 18 -> subkey this i = subkey this' i.
Proof. intros Hi. unfold subkey. apply (at_agree _ _ 18); [exact same_subkeys|lia]. Qed.

Lemma encrypt_value_agree b : encrypt_value cfg this b = encrypt_value cfg this' b.
Proof.
  unfold encrypt_value. cbn [map].
  rewrite !subkey_agree by lia.
  rewrite (rounds_ext _ _ Feistel_value_agree). reflexivity.
Qed.

Lemma decrypt_value_agree b : decrypt_value cfg this b = decrypt_value cfg this' b.
Proof.
  unfold decrypt_value. cbn [map].
  rewrite !subkey_agree by lia.
  rewrite (rounds_ext _ _ Feistel_value_agree). reflexivity.
Qed.

End ReadsWithin.

(** X14.  [EncryptBlock] and [DecryptBlock] read the 18 subkeys and the
    1024 table words and nothing beyond them: on two objects that agree on
    these, they return the same block.  Every index [Feistel] forms is
    within the table it reads. *)
Theorem block_functions_read_within_arrays (cfg : build) (this this' : Blowfish)
    (block : Z * Z) :
  take 18 (pary_ this) = take 18 (pary_ this') ->
  take 1024 (sbox_ this) = take 1024 (sbox_ this') ->
  fst (EncryptBlock cfg block this) = fst (EncryptBlock cfg block this')
  /\ fst (DecryptBlock cfg block this) = fst (DecryptBlock cfg block this').
Proof.
  intros Hp Hs. rewrite !EncryptBlock_run, !DecryptBlock_run. cbn [fst].
  rewrite (encrypt_value_agree cfg this this' Hp Hs).
  rewrite (decrypt_value_agree cfg this this' Hp Hs).
  split; reflexivity.
Qed.

(** ** The key schedule writes inside the arrays *)








(** ** Negative key lengths *)

Lemma key_word_opp cfg key L i : key_word cfg key (- L) i = key_word cfg key L i.
Proof.
  unfold key_word. destruct (Z.eq_dec L 0) as [->|HL]; [reflexivity|].
  rewrite !Z.rem_opp_r by exact HL. reflexivity.
Qed.

Lemma SetKey_keying_opp cfg initial_pary initial_sbox key L this :
  L < 0 -> Z.rem L 4 = -1 \/ Z.rem L 4 = -2 ->
  SetKey_keying cfg initial_pary initial_sbox key L this
  = SetKey_keying cfg initial_pary initial_sbox key (- L) this.
Proof.
  intros HL Hr.
  assert (Hg : exists g, (g = 1 \/ g = 2) /\ GCD L 4 = Returns (- g)
                         /\ GCD (- L) 4 = Returns g).
  { pose proof (GCD_4 L) as H1. pose proof (GCD_4 (- L)) as H2.
    rewrite Z.rem_opp_l in H2 by lia.
    destruct Hr as [Hr|Hr]; rewrite Hr in H1, H2.
    - exists 1. split; [left; reflexivity|]. split; [exact H1|exact H2].
    - exists 2. split; [right; reflexivity|]. split; [exact H1|exact H2]. }
  destruct Hg as [g [Hg12 [Hg Hg']]].
  assert (Hq : Z.quot L (- g) = Z.quot (- L) g).
  { rewrite <- (Z.quot_opp_opp (- L) g) by lia. rewrite Z.opp_involutive.
    reflexivity. }
  assert (Hb : 0 < Z.quot (- L) g).
  { pose proof (Z.quot_rem' (- L) g) as Hd.
    pose proof (Z.rem_bound_pos (- L) g ltac:(lia) ltac:(lia)) as Hrb.
    assert (Hdiv : Z.rem (- L) g = 0).
    { destruct Hg12 as [->| ->]; [apply Z.rem_1_r|].
      destruct Hr as [Hr|Hr].
      - exfalso. rewrite GCD_4, Hr in Hg. discriminate Hg.
      - pose proof (Z.quot_rem' L 4) as H4. rewrite Hr in H4.
        replace (- L) with ((- (2 * Z.quot L 4) + 1) * 2) by lia.
        apply Z.rem_mul. lia. }
    nia. }
  rewrite (SetKey_keying_run cfg _ _ key L this (- g) ltac:(lia) Hg ltac:(lia)
             ltac:(rewrite Hq; exact Hb)).
  rewrite (SetKey_keying_run cfg _ _ key (- L) this g ltac:(lia) Hg' ltac:(lia) Hb).
  rewrite Hq.
  rewrite (map_ext _ _ (fun i => eq_sym (key_word_opp cfg key L i))).
  reflexivity.
Qed.

(** What [GCD] and the division give for such a length. *)
Lemma GCD_4_negative L :
  Z.rem L 4 = -1 \/ Z.rem L 4 = -2 -> GCD L 4 = Returns (Z.rem L 4).
Proof.
  intros Hr. rewrite GCD_4. destruct Hr as [Hr|Hr]; rewrite Hr; reflexivity.
Qed.

Lemma buffer_length_negative L :
  L < 0 -> Z.rem L 4 = -1 \/ Z.rem L 4 = -2 -> 0 < Z.quot L (Z.rem L 4).
Proof.
  intros HL Hr. pose proof (Z.quot_rem' L 4) as H4.
  destruct Hr as [Hr|Hr]; rewrite Hr in *.
  - change (-1) with (Z.opp 1). rewrite Z.quot_opp_r, Z.quot_1_r by lia. lia.
  - change (-2) with (Z.opp 2). rewrite Z.quot_opp_r by lia.
    replace L with ((2 * Z.quot L 4 - 1) * 2) at 1 by lia.
    rewrite Z.quot_mul by lia. lia.
Qed.

(** X16.  A negative key length above [-2^29] whose remainder by 4 is -1
    or -2 is taken for its absolute value: [GCD] returns a negative
    divisor, [buffer_length] comes out positive, the remainders by the
    negative length are the remainders by its absolute value, and [SetKey]
    returns, with the object that [SetKey] with the length [-byte_length]
    returns with. *)
Theorem SetKey_negative_length_as_positive (cfg : build)
    (initial_pary initial_sbox : list Z) (key : list byte) (L : Z) (this : Blowfish) :
  - 2 ^ 29 < L < 0 -> Z.rem L 4 = -1 \/ Z.rem L 4 = -2 ->
  exists g st,
    GCD L 4 = Returns g /\ g < 0 /\ 0 < Z.quot L g
    /\ SetKey cfg initial_pary initial_sbox key L this = (Returns tt, st)
    /\ SetKey cfg initial_pary initial_sbox key (- L) this = (Returns tt, st).
Proof.
  intros [_ HL] Hr.
  exists (Z.rem L 4),
    (expansion cfg (mkBlowfish (xor_subkeys (key_word cfg key (- L)) initial_pary)
                               initial_sbox)).
  split; [apply GCD_4_negative, Hr|].
  split; [destruct Hr as [Hr|Hr]; rewrite Hr; reflexivity|].
  split; [apply buffer_length_negative; assumption|].
  split; [|apply SetKey_positive; lia].
  unfold SetKey, bind.
  rewrite (SetKey_keying_opp cfg initial_pary initial_sbox key L this HL Hr).
  rewrite (SetKey_keying_positive cfg _ _ key (- L) this ltac:(lia)).
  apply SetKey_expansion_run.
Qed.

(** ** Instances *)

Lemma Forall_uint32_zeroed : Forall uint32 (pary_ zeroed).
Proof.
  apply Forall_forall. intros x Hx. apply elem_of_replicate in Hx.
  destruct Hx as [-> _]. unfold uint32. lia.
Qed.


Lemma GCD_euclid_witness :
  (int_range 12 /\ int_range 18 /\
   exists g, GCD 12 18 = Returns g
             /\ int_range g /\ g <> 0
             /\ Z.abs g = Z.gcd 12 18
             /\ (0 <= 12 -> 0 < 18 -> g = Z.gcd 12 18))
  /\ (int_range INT_MIN /\ int_range (-1) /\
      GCD INT_MIN (-1) = Faults RemainderOverflow).
Proof.
  assert (H12 : int_range 12) by (apply int_range_bounds; lia).
  assert (H18 : int_range 18) by (apply int_range_bounds; lia).
  assert (Hm : int_range INT_MIN) by (apply int_range_bounds; rewrite INT_MIN_value; lia).
  assert (H1 : int_range (-1)) by (apply int_range_bounds; lia).
  assert (Hn0 : 18 <> 0) by discriminate.
  assert (Hn1 : ~ (12 = INT_MIN /\ 18 = -1)) by (intros [_ H]; discriminate H).
  assert (Hn2 : ~ (12 = -1 /\ 18 = INT_MIN)) by (intros [H _]; discriminate H).
  split.
  - split; [exact H12|]. split; [exact H18|].
    exact (proj2 (proj2 (proj2 (GCD_euclid 12 18 H12 H18))) Hn0 Hn1 Hn2).
  - split; [exact Hm|]. split; [exact H1|].
    exact (proj1 (proj2 (GCD_euclid INT_MIN (-1) Hm H1)) (conj eq_refl eq_refl)).
Defined.

Lemma Encrypt_Decrypt_witness :
  Forall uint32 (pary_ zeroed) /\
  0 <= 11 <= Z.of_nat (length sample_buffer) /\
  (out <- Decrypt little_endian_build sample_buffer None 11 ;;
   Encrypt little_endian_build out None 11) zeroed
  = (Returns sample_buffer, zeroed).
Proof.
  assert (Hn : 0 <= 11 <= Z.of_nat (length sample_buffer)) by (cbn; lia).
  split; [exact Forall_uint32_zeroed|]. split; [exact Hn|].
  exact (proj1 (Encrypt_Decrypt little_endian_build zeroed sample_buffer 11
                  Forall_uint32_zeroed Hn)).
Defined.


Lemma nothing_past_byte_length_witness :
  0 <= 8 <= Z.of_nat (length (source_bytes sample_buffer (Some sample_B))) /\
  8 <= Z.of_nat (length sample_buffer) /\
  exists out,
    Encrypt little_endian_build sample_buffer (Some sample_B) 8 zeroed
    = (Returns out, zeroed)
    /\ length out = length sample_buffer
    /\ drop (Z.to_nat 8) out = drop (Z.to_nat 8) sample_buffer
    /\ Encrypt little_endian_build
         (take (Z.to_nat 8) (source_bytes sample_buffer (Some sample_B))) None 8 zeroed
       = (Returns (take (Z.to_nat 8) out), zeroed).
Proof.
  assert (Hs : 0 <= 8 <= Z.of_nat (length (source_bytes sample_buffer (Some sample_B))))
    by (cbn; lia).
  assert (Hd : 8 <= Z.of_nat (length sample_buffer)) by (cbn; lia).
  split; [exact Hs|]. split; [exact Hd|].
  exact (proj1 (nothing_past_byte_length little_endian_build zeroed sample_buffer
                  (Some sample_B) 8 Hs Hd)).
Defined.

Lemma Encrypt_app_witness :
  length sample_A = (8 * 1)%nat /\
  0 <= 11 <= Z.of_nat (length sample_buffer) /\
  Encrypt little_endian_build (sample_A ++ sample_buffer) None
    (Z.of_nat (length sample_A) + 11) zeroed
  = (x <- Encrypt little_endian_build sample_A None (Z.of_nat (length sample_A)) ;;
     y <- Encrypt little_endian_build sample_buffer None 11 ;;
     ret (x ++ y)) zeroed.
Proof.
  assert (Hn : 0 <= 11 <= Z.of_nat (length sample_buffer)) by (cbn; lia).
  split; [reflexivity|]. split; [exact Hn|].
  exact (proj1 (Encrypt_app little_endian_build zeroed sample_A sample_buffer 1 11
                  eq_refl Hn)).
Defined.

Lemma Encrypt_equal_blocks_witness :
  Forall uint32 (pary_ zeroed) /\
  0 <= 16 <= Z.of_nat (length (sample_A ++ sample_A)) /\
  (0 < block_count 16)%nat /\ (1 < block_count 16)%nat /\
  exists out,
    Encrypt little_endian_build (sample_A ++ sample_A) None 16 zeroed
    = (Returns out, zeroed)
    /\ (block_at 0 out = block_at 1 out
        <-> block_at 0 (sample_A ++ sample_A) = block_at 1 (sample_A ++ sample_A)).
Proof.
  assert (Hn : 0 <= 16 <= Z.of_nat (length (sample_A ++ sample_A))) by (cbn; lia).
  assert (H0 : (0 < block_count 16)%nat)
    by (change (block_count 16) with 2%nat; lia).
  assert (H1 : (1 < block_count 16)%nat)
    by (change (block_count 16) with 2%nat; lia).
  split; [exact Forall_uint32_zeroed|]. split; [exact Hn|].
  split; [exact H0|]. split; [exact H1|].
  exact (Encrypt_equal_blocks little_endian_build zeroed (sample_A ++ sample_A) 16 0 1
           Forall_uint32_zeroed Hn H0 H1).
Defined.


Lemma SetKey_reads_72_bytes_witness :
  0 < 2 < 2 ^ 29 /\ 0 < 6 < 2 ^ 29 /\
  (forall j, 0 <= j < 72 ->
     at_ [Byte.x01; Byte.x02] (j mod 2)
     = at_ [Byte.x01; Byte.x02; Byte.x01; Byte.x02; Byte.x01; Byte.x02] (j mod 6)) /\
  SetKey little_endian_build Pi.initial_pary Pi.initial_sbox [Byte.x01; Byte.x02] 2 zeroed
  = SetKey little_endian_build Pi.initial_pary Pi.initial_sbox
      [Byte.x01; Byte.x02; Byte.x01; Byte.x02; Byte.x01; Byte.x02] 6 zeroed.
Proof.
  assert (H2 : 0 < 2 < 2 ^ 29) by (split; reflexivity).
  assert (H6 : 0 < 6 < 2 ^ 29) by (split; reflexivity).
  assert (H : forall j, 0 <= j < 72 ->
                at_ [Byte.x01; Byte.x02] (j mod 2)
                = at_ [Byte.x01; Byte.x02; Byte.x01; Byte.x02; Byte.x01; Byte.x02]
                    (j mod 6)).
  { intros j _.
    rewrite <- (Z.mod_mod_divide j 6 2) by (exists 3; reflexivity).
    pose proof (Z.mod_pos_bound j 6 ltac:(lia)) as Hb.
    assert (Hc : j mod 6 = 0 \/ j mod 6 = 1 \/ j mod 6 = 2 \/ j mod 6 = 3
                 \/ j mod 6 = 4 \/ j mod 6 = 5) by lia.
    destruct Hc as [->|[->|[->|[->|[->| ->]]]]]; reflexivity. }
  split; [exact H2|]. split; [exact H6|]. split; [exact H|].
  exact (SetKey_reads_72_bytes little_endian_build Pi.initial_pary Pi.initial_sbox
           [Byte.x01; Byte.x02]
           [Byte.x01; Byte.x02; Byte.x01; Byte.x02; Byte.x01; Byte.x02] 2 6 zeroed
           H2 H6 H).
Defined.

Lemma SetKey_ignores_bytes_past_72_witness :
  72 <= 73 < 2 ^ 29 /\ 72 <= 80 < 2 ^ 29 /\
  take 72 (mjoin (replicate 9 sample_A) ++ [Byte.x01])
  = take 72 (mjoin (replicate 9 sample_A) ++ sample_B) /\
  SetKey little_endian_build Pi.initial_pary Pi.initial_sbox
    (mjoin (replicate 9 sample_A) ++ [Byte.x01]) 73 zeroed
  = SetKey little_endian_build Pi.initial_pary Pi.initial_sbox
      (mjoin (replicate 9 sample_A) ++ sample_B) 80 zeroed.
Proof.
  assert (H1 : 72 <= 73 < 2 ^ 29) by (split; [lia|reflexivity]).
  assert (H2 : 72 <= 80 < 2 ^ 29) by (split; [lia|reflexivity]).
  split; [exact H1|]. split; [exact H2|]. split; [reflexivity|].
  exact (SetKey_ignores_bytes_past_72 little_endian_build Pi.initial_pary
           Pi.initial_sbox (mjoin (replicate 9 sample_A) ++ [Byte.x01])
           (mjoin (replicate 9 sample_A) ++ sample_B) 73 80 zeroed H1 H2 eq_refl).
Defined.

Lemma configured_builds_agree_witness :
  configured little_endian_build /\ configured big_endian_build /\ 0 < 8 /\
  SetKey little_endian_build Pi.initial_pary Pi.initial_sbox zero_key 8 zeroed
  = SetKey big_endian_build Pi.initial_pary Pi.initial_sbox zero_key 8 zeroed.
Proof.
  assert (HL : 0 < 8) by lia.
  split; [reflexivity|]. split; [reflexivity|]. split; [exact HL|].
  exact (proj1 (configured_builds_agree little_endian_build big_endian_build
                  Pi.initial_pary Pi.initial_sbox zero_key 8 (0, 0) zeroed
                  eq_refl eq_refl HL)).
Defined.

Lemma Encrypt_on_other_byte_order_witness :
  configured little_endian_build /\ configured big_endian_build /\
  host little_endian_build <> host big_endian_build /\
  0 <= 11 <= Z.of_nat (length sample_buffer) /\
  Encrypt little_endian_build sample_buffer None 11 zeroed
  = (out <- Encrypt big_endian_build
              (byteswap_words (2 * block_count 11) sample_buffer) None 11 ;;
     ret (byteswap_words (2 * block_count 11) out)) zeroed.
Proof.
  assert (Hh : host little_endian_build <> host big_endian_build) by discriminate.
  assert (Hn : 0 <= 11 <= Z.of_nat (length sample_buffer)) by (cbn; lia).
  split; [reflexivity|]. split; [reflexivity|]. split; [exact Hh|]. split; [exact Hn|].
  exact (proj1 (Encrypt_on_other_byte_order little_endian_build big_endian_build zeroed
                  sample_buffer 11 eq_refl eq_refl Hh Hn)).
Defined.

Lemma block_functions_read_within_arrays_witness :
  take 18 (pary_ zeroed) = take 18 (pary_ (mkBlowfish (replicate 18 0 ++ [1])
                                              (replicate 1024 0 ++ [1]))) /\
  take 1024 (sbox_ zeroed) = take 1024 (sbox_ (mkBlowfish (replicate 18 0 ++ [1])
                                                  (replicate 1024 0 ++ [1]))) /\
  fst (EncryptBlock little_endian_build (1, 2) zeroed)
  = fst (EncryptBlock little_endian_build (1, 2)
           (mkBlowfish (replicate 18 0 ++ [1]) (replicate 1024 0 ++ [1]))).
Proof.
  split; [reflexivity|]. split; [reflexivity|].
  exact (proj1 (block_functions_read_within_arrays little_endian_build zeroed
                  (mkBlowfish (replicate 18 0 ++ [1]) (replicate 1024 0 ++ [1]))
                  (1, 2) eq_refl eq_refl)).
Defined.


Lemma SetKey_negative_length_as_positive_witness :
  - 2 ^ 29 < -6 < 0 /\ (Z.rem (-6) 4 = -1 \/ Z.rem (-6) 4 = -2) /\
  exists g st,
    GCD (-6) 4 = Returns g /\ g < 0 /\ 0 < Z.quot (-6) g
    /\ SetKey little_endian_build Pi.initial_pary Pi.initial_sbox
         [Byte.x01; Byte.x02; Byte.x03; Byte.x04; Byte.x05; Byte.x06] (-6) zeroed
       = (Returns tt, st)
    /\ SetKey little_endian_build Pi.initial_pary Pi.initial_sbox
         [Byte.x01; Byte.x02; Byte.x03; Byte.x04; Byte.x05; Byte.x06] (- -6) zeroed
       = (Returns tt, st).
Proof.
  assert (HL : - 2 ^ 29 < -6 < 0) by (split; reflexivity).
  assert (Hr : Z.rem (-6) 4 = -1 \/ Z.rem (-6) 4 = -2) by (right; reflexivity).
  split; [exact HL|]. split; [exact Hr|].
  exact (SetKey_negative_length_as_positive little_endian_build Pi.initial_pary
           Pi.initial_sbox
           [Byte.x01; Byte.x02; Byte.x03; Byte.x04; Byte.x05; Byte.x06] (-6) zeroed
           HL Hr).
Defined.
